(** * CSV-to-database loader: retry controller, transactional inserter, orchestrator

    Shallow embedding of the TypeScript loader script:
    [checkDatabaseConnection], [delay], [retryOperation], [processCSVStream]
    and [main], together with a model of the collaborators they call
    (the csv-parse stream with [columns: true, skip_empty_lines: true], the
    knex/SQLite handle [db], the console and the timer).

    Asynchronous code is sequential here: every [await] is a bind of the
    monad [M], a rejected promise or a thrown exception is [Err], and an
    ['error'] event emitted on a stream nobody listens to is [Crash] (Node
    throws it as an uncaught exception and the process ends). *)

From stdpp Require Import gmap strings list pretty.
From Stdlib Require Import ZArith Lia Ascii.

Open Scope Z_scope.

(** ** Errors and outcomes *)

(** A JavaScript error object, as far as the program inspects it:
    the optional [code] property and the message. *)
Record JsError := mkError { code : option string; message : string }.

#[global] Instance JsError_eq_dec : EqDecision JsError.
Proof. solve_decision. Defined.

Inductive Outcome (A : Type) : Type :=
| Ok (a : A)          (* promise fulfilled, normal completion *)
| Err (e : JsError)   (* promise rejected, exception thrown *)
| Crash (e : JsError) (* unhandled 'error' event: uncaught, the process dies *).
Arguments Ok {A} a.
Arguments Err {A} e.
Arguments Crash {A} e.

(** ** The world the program runs in *)

(** A record produced by the parser with [columns: true]: an object whose
    keys are the header names, in first-insertion order. *)
Definition Record_ := list (string * string).

Inductive Stmt : Type :=
| SelectOne                                      (* db.raw('SELECT 1') *)
| Begin | Commit | Rollback                      (* db.transaction *)
| Insert (tableName : string) (record : Record_) (* trx(tableName).insert(record) *)
| CountRows (tableName : string)                 (* db(t).count('* as count').first() *).

(** Everything observable that the run does, in order. [Invoke] is a ghost
    event: it marks each call [operation()] made by [retryOperation]. *)
Inductive Event : Type :=
| Invoke (attempt : Z)
| ConsoleLog (line : string)
| ConsoleError (line : string) (err : option JsError)
| Timer (ms : Z)               (* await delay(ms) *)
| Open (filePath : string)     (* createReadStream(filePath) *)
| Data (record : Record_)      (* parser 'data' *)
| End_                         (* parser 'end' *)
| ParserError (e : JsError)    (* parser 'error' *)
| Sql (s : Stmt)
| Destroy                      (* db.destroy() *).

#[global] Instance Stmt_eq_dec : EqDecision Stmt.
Proof. solve_decision. Defined.
#[global] Instance Event_eq_dec : EqDecision Event.
Proof. solve_decision. Defined.

(** A table created by the knex migrations: its designated
    primary-key column and its rows in insertion (rowid) order. *)
Record Table := mkTable { primaryKey : string; rows : list Record_ }.

Record World := mkWorld {
  dirname : string;                (* __dirname *)
  files : gmap string string;      (* file system: path to content *)
  tables : gmap string Table;      (* committed-or-pending state seen by [db] *)
  faults : list (option JsError);  (* what the engine answers to the next
                                      statements; [None] = run it normally *)
  trace : list Event;
  records : list Record_;          (* [records] of the running processCSVStream *)
  totalInserted : Z;               (* [totalInserted] of the same call *)
}.

Definition emit (ev : Event) (w : World) : World :=
  mkWorld (dirname w) (files w) (tables w) (faults w) (trace w ++ [ev])
          (records w) (totalInserted w).
Definition set_tables (ts : gmap string Table) (w : World) : World :=
  mkWorld (dirname w) (files w) ts (faults w) (trace w)
          (records w) (totalInserted w).
Definition set_faults (fs : list (option JsError)) (w : World) : World :=
  mkWorld (dirname w) (files w) (tables w) fs (trace w)
          (records w) (totalInserted w).
Definition set_records (rs : list Record_) (w : World) : World :=
  mkWorld (dirname w) (files w) (tables w) (faults w) (trace w)
          rs (totalInserted w).
Definition set_totalInserted (n : Z) (w : World) : World :=
  mkWorld (dirname w) (files w) (tables w) (faults w) (trace w)
          (records w) n.

(** ** The monad of asynchronous computations *)

Definition M (A : Type) : Type := World -> Outcome A * World.

#[global] Instance M_ret : MRet M := fun A a w => (Ok a, w).
#[global] Instance M_bind : MBind M := fun A B f c w =>
  match c w with
  | (Ok a, w') => f a w'
  | (Err e, w') => (Err e, w')
  | (Crash e, w') => (Crash e, w')
  end.

Definition throw {A} (e : JsError) : M A := fun w => (Err e, w).
Definition crash {A} (e : JsError) : M A := fun w => (Crash e, w).

(** [try { body } catch (error) { handler error }] *)
Definition try_catch {A} (body : M A) (handler : JsError -> M A) : M A :=
  fun w =>
    match body w with
    | (Err e, w') => handler e w'
    | r => r
    end.

(** [try { body } finally { cleanup }]: the cleanup runs on normal
    completion, on [return] and on a throw; its own failure replaces the
    outcome. Nothing runs once the process has crashed. *)
Definition try_finally {A} (body : M A) (cleanup : M unit) : M A :=
  fun w =>
    match body w with
    | (Crash e, w') => (Crash e, w')
    | (r, w') =>
        match cleanup w' with
        | (Ok _, w'') => (r, w'')
        | (Err e, w'') => (Err e, w'')
        | (Crash e, w'') => (Crash e, w'')
        end
    end.

Definition do_ (ev : Event) : M unit := fun w => (Ok tt, emit ev w).
Definition console_log (line : string) : M unit := do_ (ConsoleLog line).
Definition console_error (line : string) (err : option JsError) : M unit :=
  do_ (ConsoleError line err).

Definition gets {A} (f : World -> A) : M A := fun w => (Ok (f w), w).
Definition modify (f : World -> World) : M unit := fun w => (Ok tt, f w).

(** ** Collaborators *)

(** *** Records as JavaScript objects *)

Fixpoint record_get (k : string) (r : Record_) : option string :=
  match r with
  | [] => None
  | (k', v) :: r' => if String.eqb k k' then Some v else record_get k r'
  end.

(** [record[k] = v]: an existing key keeps its place and takes the new
    value, a new key goes last. *)
Fixpoint record_set (k v : string) (r : Record_) : Record_ :=
  match r with
  | [] => [(k, v)]
  | (k', v') :: r' =>
      if String.eqb k k' then (k', v) :: r' else (k', v') :: record_set k v r'
  end.

(** *** The csv-parse stream, options [columns: true, skip_empty_lines: true]

    The parser of csv-parse, character by character, with the options the
    program gives and the defaults for the rest: delimiter comma, quote and
    escape the double quote, record delimiter discovered at its first occurrence
    (CR LF, LF or CR), no trimming, no comments. The content is the bytes
    of the file. *)

Definition LF : Ascii.ascii := "010"%char.
Definition CR : Ascii.ascii := "013"%char.
Definition comma : Ascii.ascii := ","%char.
Definition quote : Ascii.ascii := Ascii.ascii_of_nat 34.

Definition make_record (header fields : list string) : Record_ :=
  fold_left (fun r kv => record_set (fst kv) (snd kv) r) (combine header fields) [].

Module csv.

(** [state] and the two options that change while the parser runs:
    [record_delimiter] is empty until it is discovered, [columns] is
    [None] while the option is still [true] (the header is yet to come).
    [skip] counts the characters the loop jumps over ([pos += n]). *)
Record Parser := mkParser {
  quoting : bool;
  wasQuoting : bool;
  escaping : bool;
  field : list Ascii.ascii;
  record : list string;
  record_delimiter : list Ascii.ascii;
  columns : option (list string);
  skip : nat
}.

Definition init : Parser := mkParser false false false [] [] [] None 0.

Definition set_quoting (b : bool) (p : Parser) : Parser :=
  mkParser b (wasQuoting p) (escaping p) (field p) (record p)
           (record_delimiter p) (columns p) (skip p).
Definition set_escaping (b : bool) (p : Parser) : Parser :=
  mkParser (quoting p) (wasQuoting p) b (field p) (record p)
           (record_delimiter p) (columns p) (skip p).
Definition set_record_delimiter (rd : list Ascii.ascii) (p : Parser) : Parser :=
  mkParser (quoting p) (wasQuoting p) (escaping p) (field p) (record p)
           rd (columns p) (skip p).
Definition set_skip (n : nat) (p : Parser) : Parser :=
  mkParser (quoting p) (wasQuoting p) (escaping p) (field p) (record p)
           (record_delimiter p) (columns p) n.
Definition append (chr : Ascii.ascii) (p : Parser) : Parser :=
  mkParser (quoting p) (wasQuoting p) (escaping p) (field p ++ [chr]) (record p)
           (record_delimiter p) (columns p) (skip p).
(** The closing quote of a field. *)
Definition close_quote (p : Parser) : Parser :=
  mkParser false true (escaping p) (field p) (record p)
           (record_delimiter p) (columns p) (skip p).

(** The errors the parser can end with under these options. *)
Inductive Failure :=
| CSV_RECORD_INCONSISTENT_COLUMNS (expected got : nat)
| CSV_QUOTE_NOT_CLOSED
| CSV_INVALID_CLOSING_QUOTE (next : Ascii.ascii)
| INVALID_OPENING_QUOTE.

(** What one character does: the parser goes on, a record is pushed, or
    the parser ends with an error. *)
Inductive Step :=
| Next (p : Parser)
| Push (r : Record_) (p : Parser)
| Stop (f : Failure).

(** [__onField]: the field joins the record. *)
Definition onField (p : Parser) : Parser :=
  mkParser (quoting p) false (escaping p) []
           (record p ++ [String.string_of_list_ascii (field p)])
           (record_delimiter p) (columns p) (skip p).

(** [__onRecord]: the first record becomes the column names; a later one
    must have as many fields as there are columns and is pushed as an
    object keyed by them. *)
Definition onRecord (p : Parser) : Step :=
  let reset cols :=
    mkParser (quoting p) (wasQuoting p) (escaping p) (field p) []
             (record_delimiter p) cols (skip p) in
  match columns p with
  | None => Next (reset (Some (record p)))
  | Some cols =>
      if Nat.eqb (List.length (record p)) (List.length cols)
      then Push (make_record cols (record p)) (reset (Some cols))
      else Stop (CSV_RECORD_INCONSISTENT_COLUMNS (List.length cols) (List.length (record p)))
  end.

(** [__autoDiscoverRecordDelimiter]: windows, unix, mac, in this order. *)
Definition autoDiscoverRecordDelimiter (buf : list Ascii.ascii) : list Ascii.ascii :=
  match buf with
  | c1 :: rest =>
      if Ascii.eqb c1 CR then
        match rest with
        | c2 :: _ => if Ascii.eqb c2 LF then [CR; LF] else [CR]
        | [] => [CR]
        end
      else if Ascii.eqb c1 LF then [LF]
      else []
  | [] => []
  end.

Fixpoint starts_with (rd buf : list Ascii.ascii) : bool :=
  match rd, buf with
  | [], _ => true
  | c :: rd', b :: buf' => Ascii.eqb c b && starts_with rd' buf'
  | _ :: _, [] => false
  end.

(** [__isRecordDelimiter]: the length of the record delimiter found at
    this position, 0 when there is none. *)
Definition isRecordDelimiter (rd buf : list Ascii.ascii) : nat :=
  match rd with
  | [] => 0
  | _ :: _ => if starts_with rd buf then List.length rd else 0
  end.

Definition discover (buf : list Ascii.ascii) (p : Parser) : Parser :=
  match record_delimiter p with
  | [] => set_record_delimiter (autoDiscoverRecordDelimiter buf) p
  | _ :: _ => p
  end.

(** One turn of the loop of [parse], at character [chr] followed by
    [rest]. *)
Definition step (p : Parser) (chr : Ascii.ascii) (rest : list Ascii.ascii) : Step :=
  let p := if quoting p then p else discover (chr :: rest) p in
  if escaping p then Next (append chr (set_escaping false p))
  else if quoting p && Ascii.eqb chr quote
          && match rest with next :: _ => Ascii.eqb next quote | [] => false end
  then Next (set_escaping true p)
  else if Ascii.eqb chr quote then
    if quoting p then
      let p := discover rest p in
      match rest with
      | [] => Next (close_quote p)
      | next :: _ =>
          if Ascii.eqb next comma
             || negb (Nat.eqb (isRecordDelimiter (record_delimiter p) rest) 0)
          then Next (close_quote p)
          else Stop (CSV_INVALID_CLOSING_QUOTE next)
      end
    else
      match field p with
      | [] => Next (set_quoting true p)
      | _ :: _ => Stop INVALID_OPENING_QUOTE
      end
  else if quoting p then Next (append chr p)
  else
    match isRecordDelimiter (record_delimiter p) (chr :: rest) with
    | S n =>
        match wasQuoting p, record p, field p with
        | false, [], [] => Next (set_skip n p)    (* skip_empty_lines *)
        | _, _, _ =>
            match onRecord (onField p) with
            | Next p' => Next (set_skip n p')
            | Push r p' => Push r (set_skip n p')
            | Stop f => Stop f
            end
        end
    | O =>
        if Ascii.eqb chr comma then Next (onField p)
        else Next (append chr p)
    end.

(** The end of the input: an open quote is an error; a last line without
    a record delimiter is a record like any other. *)
Definition finish (p : Parser) : Step :=
  if quoting p then Stop CSV_QUOTE_NOT_CLOSED
  else
    match wasQuoting p, record p, field p with
    | false, [], [] => Next p
    | _, _, _ => onRecord (onField p)
    end.

(** [info.lines], which the error messages quote: a CR or LF that the
    loop looks at ends a line, counted when the loop reaches the next
    character. *)
Definition count_line (lines : Z) (wasRowDelimiter : bool) (chr : Ascii.ascii) : Z * bool :=
  let lines := if wasRowDelimiter then lines + 1 else lines in
  (lines, Ascii.eqb chr CR || Ascii.eqb chr LF).

(** The loop of [parse] over the whole content: the records pushed, in
    order, and the error that ended the parser, if any, with the line it
    is reported at. *)
Fixpoint run (p : Parser) (lines : Z) (wasRowDelimiter : bool)
    (buf : list Ascii.ascii) : list Record_ * option (Failure * Z) :=
  match buf with
  | [] =>
      match finish p with
      | Next _ => ([], None)
      | Push r _ => ([r], None)
      | Stop f => ([], Some (f, lines))
      end
  | chr :: rest =>
      match skip p with
      | S n => run (set_skip n p) lines wasRowDelimiter rest
      | O =>
          let '(lines, wasRowDelimiter) := count_line lines wasRowDelimiter chr in
          match step p chr rest with
          | Next p' => run p' lines wasRowDelimiter rest
          | Push r p' =>
              let '(rs, e) := run p' lines wasRowDelimiter rest in (r :: rs, e)
          | Stop f => ([], Some (f, lines))
          end
      end
  end.




Definition error (f : Failure) (line : Z) : JsError :=
  match f with
  | CSV_RECORD_INCONSISTENT_COLUMNS expected got =>
      mkError (Some "CSV_RECORD_INCONSISTENT_COLUMNS")
        ("Invalid Record Length: columns length is " +:+ pretty expected
           +:+ ", got " +:+ pretty got +:+ " on line " +:+ pretty line)
  | CSV_QUOTE_NOT_CLOSED =>
      mkError (Some "CSV_QUOTE_NOT_CLOSED")
        ("Quote Not Closed: the parsing is finished with an opening quote at line "
           +:+ pretty line)
  | CSV_INVALID_CLOSING_QUOTE next =>
      mkError (Some "CSV_INVALID_CLOSING_QUOTE")
        ("Invalid Closing Quote: got " +:+ String quote (String next (String quote EmptyString))
           +:+ " at line " +:+ pretty line
           +:+ " instead of delimiter, record delimiter, trimable character (if activated) or comment")
  | INVALID_OPENING_QUOTE =>
      mkError (Some "INVALID_OPENING_QUOTE")
        ("Invalid Opening Quote: a quote is found inside a field at line " +:+ pretty line)
  end.

(** The records of a file and the error that ends the stream, if any. *)
Definition parse (content : string) : list Record_ * option JsError :=
  let '(rs, e) := run init 1 false (String.list_ascii_of_string content) in
  (rs, (fun fl => error (fst fl) (snd fl)) <$> e).

End csv.

(** The pure reading of a whole file: all its records, or the error. *)
Definition parse_csv (content : string) : JsError + list Record_ :=
  match csv.parse content with
  | (rs, None) => inr rs
  | (_, Some e) => inl e
  end.

Definition enoent (filePath : string) : JsError :=
  mkError (Some "ENOENT")
          ("ENOENT: no such file or directory, open '" +:+ filePath +:+ "'").

(** [createReadStream(filePath)]: a missing file makes the read stream emit
    ['error']. The program listens for ['error'] on the parser only, and
    [pipe] does not forward the source's errors, so that event is unhandled. *)
Definition createReadStream (filePath : string) : M string :=
  do_ (Open filePath);;
  fs ← gets files;
  match fs !! filePath with
  | Some content => mret content
  | None => crash (enoent filePath)
  end.

(** *** The database handle [db] (knex over SQLite) *)

Definition next_fault : M (option JsError) := fun w =>
  match faults w with
  | [] => (Ok None, w)
  | f :: fs => (Ok f, set_faults fs w)
  end.

(** A statement reaches the engine, which either refuses it with the
    scheduled fault (a lock, a coercion failure, ...) or runs it. *)
Definition submit (s : Stmt) : M unit :=
  do_ (Sql s);;
  f ← next_fault;
  match f with
  | Some e => throw e
  | None => mret tt
  end.

Definition sqlite_busy : JsError :=
  mkError (Some "SQLITE_BUSY") "SQLITE_BUSY: database is locked".
Definition sqlite_constraint (tableName pk : string) : JsError :=
  mkError (Some "SQLITE_CONSTRAINT")
          ("SQLITE_CONSTRAINT: UNIQUE constraint failed: " +:+ tableName +:+ "." +:+ pk).
Definition no_such_table (tableName : string) : JsError :=
  mkError (Some "SQLITE_ERROR") ("SQLITE_ERROR: no such table: " +:+ tableName).

Definition pk_taken (t : Table) (record : Record_) : bool :=
  match record_get (primaryKey t) record with
  | Some v =>
      existsb (fun r => bool_decide (record_get (primaryKey t) r = Some v)) (rows t)
  | None => false
  end.

Definition raw_select_1 : M unit := submit SelectOne.

(** [trx(tableName).insert(record)]: the row is appended unless the engine
    refuses the statement, the table is missing or the primary key is taken. *)
Definition insert (tableName : string) (record : Record_) : M unit :=
  submit (Insert tableName record);;
  ts ← gets tables;
  match ts !! tableName with
  | None => throw (no_such_table tableName)
  | Some t =>
      if pk_taken t record then throw (sqlite_constraint tableName (primaryKey t))
      else modify (set_tables (<[tableName := mkTable (primaryKey t) (rows t ++ [record])]> ts))
  end.

(** [db(tableName).count('* as count').first()], then [?.count]. *)
Definition count (tableName : string) : M Z :=
  submit (CountRows tableName);;
  ts ← gets tables;
  match ts !! tableName with
  | None => throw (no_such_table tableName)
  | Some t => mret (Z.of_nat (List.length (rows t)))
  end.

(** [db.transaction(handler)]: BEGIN, run the handler, COMMIT when its
    promise fulfils, ROLLBACK and reject with the same error when it
    rejects. BEGIN, COMMIT and ROLLBACK themselves always succeed. *)
Definition transaction {A} (handler : M A) : M A := fun w =>
  let snapshot := tables w in
  match handler (emit (Sql Begin) w) with
  | (Ok a, w') => (Ok a, emit (Sql Commit) w')
  | (Err e, w') => (Err e, emit (Sql Rollback) (set_tables snapshot w'))
  | (Crash e, w') => (Crash e, w')
  end.

Definition destroy : M unit := do_ Destroy.

(** ** The program *)

Definition checkDatabaseConnection : M bool :=
  try_catch
    (raw_select_1;;
     console_log "Database connected successfully";;
     mret true)
    (fun error =>
       console_error "Database connection failed:" (Some error);;
       mret false).

Definition delay (ms : Z) : M unit := do_ (Timer ms).

Definition is_busy (error : JsError) : bool :=
  bool_decide (code error = Some "SQLITE_BUSY").

(** *** Numbers

    [maxRetries] is a JavaScript number, not only an integer: the
    decimal [mantissa / 10^scale], [NaN] or [-Infinity]. (With
    [Infinity] the loop has no bound; it has no counterpart here.) The
    decimals stand for the numbers a literal of at most 15 significant
    digits denotes, for which the comparisons with the integer [attempt]
    and the digits printed are those of the decimal itself. *)
Inductive Number_ :=
| Decimal (mantissa : Z) (scale : nat)
| NaN
| NegInfinity.

Definition Int (z : Z) : Number_ := Decimal z 0.
Coercion Int : Z >-> Number_.
Bind Scope Z_scope with Number_.

(** [a * 10^k], and [m / 10^k] rounded down. *)
Fixpoint shift (a : Z) (k : nat) : Z :=
  match k with
  | O => a
  | S k' => 10 * shift a k'
  end.
Fixpoint unshift (m : Z) (k : nat) : Z :=
  match k with
  | O => m
  | S k' => unshift m k' / 10
  end.

(** [attempt <= maxRetries] and [attempt < maxRetries]; a comparison with
    [NaN] is false. *)
Definition le_num (a : Z) (n : Number_) : bool :=
  match n with
  | Decimal m k => bool_decide (shift a k <= m)
  | NaN | NegInfinity => false
  end.
Definition lt_num (a : Z) (n : Number_) : bool :=
  match n with
  | Decimal m k => bool_decide (shift a k < m)
  | NaN | NegInfinity => false
  end.

(** The last integer [a] with [a <= n]; 0 when no integer from 1 on
    qualifies. *)
Definition floor (n : Number_) : Z :=
  match n with
  | Decimal m k => unshift m k
  | NaN | NegInfinity => 0
  end.

(** [Number.isInteger(n)]. *)
Definition is_integer (n : Number_) : bool :=
  match n with
  | Decimal m k => bool_decide (shift (unshift m k) k = m)
  | NaN | NegInfinity => false
  end.

(** [String(n)], as a template literal prints a number: the shortest
    digits, plain notation from 1e-6 up to 1e21, exponent notation beyond. *)
Fixpoint strip_zeros (fuel : nat) (s e : Z) : Z * Z :=
  match fuel with
  | O => (s, e)
  | S fuel' => if s mod 10 =? 0 then strip_zeros fuel' (s / 10) (e + 1) else (s, e)
  end.

Fixpoint zeros (n : nat) : string :=
  match n with
  | O => EmptyString
  | S n' => "0" +:+ zeros n'
  end.

Definition toString_positive (m : Z) (scale : nat) : string :=
  let '(s, e) := strip_zeros (String.length (pretty m)) m (- Z.of_nat scale) in
  let ds := pretty s in
  let k := Z.of_nat (String.length ds) in
  let n := k + e in
  if (k <=? n) && (n <=? 21) then ds +:+ zeros (Z.to_nat (n - k))
  else if (0 <? n) && (n <=? 21) then
    String.substring 0 (Z.to_nat n) ds +:+ "." +:+ String.substring (Z.to_nat n) (Z.to_nat (k - n)) ds
  else if (-6 <? n) && (n <=? 0) then "0." +:+ zeros (Z.to_nat (- n)) +:+ ds
  else
    (if k =? 1 then ds
     else String.substring 0 1 ds +:+ "." +:+ String.substring 1 (Z.to_nat (k - 1)) ds)
      +:+ "e" +:+ (if 0 <=? n - 1 then "+" else "-") +:+ pretty (Z.abs (n - 1)).

Definition toString (n : Number_) : string :=
  match n with
  | NaN => "NaN"
  | NegInfinity => "-Infinity"
  | Decimal m k =>
      if m =? 0 then "0"
      else if m <? 0 then "-" +:+ toString_positive (- m) k
      else toString_positive m k
  end.

Definition retry_notice (delayMs attempt : Z) (maxRetries : Number_) : string :=
  "Database locked, retrying in " +:+ pretty delayMs
     +:+ "ms... (Attempt " +:+ pretty attempt +:+ "/" +:+ toString maxRetries +:+ ")".

Definition exhausted (maxRetries : Number_) : JsError :=
  mkError None ("Operation failed after " +:+ toString maxRetries +:+ " attempts").

(** One turn of the [for] loop: [Some v] is [return v], [None] falls out of
    the [catch] block to the next turn. *)
Definition retryBody {T} (operation : M T) (maxRetries : Number_) (delayMs attempt : Z)
    : M (option T) :=
  try_catch
    (do_ (Invoke attempt);;
     v ← operation;
     mret (Some v))
    (fun error =>
       if is_busy error && lt_num attempt maxRetries then
         console_log (retry_notice delayMs attempt maxRetries);;
         delay delayMs;;
         mret None
       else throw error).

Fixpoint retryLoop {T} (operation : M T) (maxRetries : Number_) (delayMs : Z)
    (attempts : list Z) : M T :=
  match attempts with
  | [] => throw (exhausted maxRetries)
  | attempt :: rest =>
      r ← retryBody operation maxRetries delayMs attempt;
      match r with
      | Some v => mret v
      | None => retryLoop operation maxRetries delayMs rest
      end
  end.

(** [for (let attempt = 1; attempt <= maxRetries; attempt++)] visits
    1, 2, ..., up to the last integer that is [<= maxRetries]. *)
Definition retryOperation {T} (operation : M T) (maxRetries : Number_) (delayMs : Z) : M T :=
  retryLoop operation maxRetries delayMs (seqZ 1 (floor maxRetries)).

(** The ['data'] listener. *)
Definition on_data (record : Record_) : M unit :=
  modify (fun w => set_records (records w ++ [record]) w).

(** The stream at work: a ['data'] event for each record, then the
    ['error'] event if the parser ended with one. *)
Fixpoint feed (rs : list Record_) (e : option JsError) : M unit :=
  match rs with
  | [] =>
      match e with
      | Some error => do_ (ParserError error);; throw error
      | None => mret tt
      end
  | record :: rest => do_ (Data record);; on_data record;; feed rest e
  end.

Definition progress_line (totalInserted : Z) (tableName : string) : string :=
  "Inserted " +:+ pretty totalInserted +:+ " records into " +:+ tableName.
Definition finished_line (totalInserted : Z) (tableName : string) : string :=
  "Finished inserting " +:+ pretty totalInserted +:+ " records into " +:+ tableName.

Fixpoint insertRecords (tableName : string) (rs : list Record_) : M unit :=
  match rs with
  | [] => mret tt
  | record :: rest =>
      insert tableName record;;
      modify (fun w => set_totalInserted (totalInserted w + 1) w);;
      n ← gets totalInserted;
      (if (n mod 1000 =? 0)%Z
       then console_log (progress_line n tableName)
       else mret tt);;
      insertRecords tableName rest
  end.

(** The operation handed to [retryOperation]: the arrow function that
    wraps the whole insertion in [db.transaction]. *)
Definition insertBatch (tableName : string) : M unit :=
  transaction (rs ← gets records; insertRecords tableName rs).

Definition processCSVStream (filePath tableName : string) : M unit :=
  modify (set_records []);;
  modify (set_totalInserted 0);;
  content ← createReadStream filePath;
  feed (fst (csv.parse content)) (snd (csv.parse content));;
  do_ End_;;
  try_catch
    (retryOperation (insertBatch tableName) 5 1000;;
     n ← gets totalInserted;
     console_log (finished_line n tableName))
    (fun error => throw error).

(** [path.resolve(__dirname, rel)], left unnormalised. *)
Definition path_resolve (dir rel : string) : string := dir +:+ "/" +:+ rel.

Definition customers_csv (w : World) : string :=
  path_resolve (dirname w) "../tmp/extracted/dump/customers.csv".
Definition organizations_csv (w : World) : string :=
  path_resolve (dirname w) "../tmp/extracted/dump/organizations.csv".

Definition main : M unit :=
  try_finally
    (try_catch
       (isConnected ← checkDatabaseConnection;
        if negb isConnected then
          console_error "Exiting due to database connection failure" None
        else
          console_log "Starting to insert customers";;
          customers ← gets customers_csv;
          processCSVStream customers "customers";;
          console_log "Starting to insert organizations";;
          organizations ← gets organizations_csv;
          processCSVStream organizations "organizations";;
          console_log "All data insertion completed";;
          customerCount ← count "customers";
          orgCount ← count "organizations";
          console_log ("Customers in database: " +:+ pretty customerCount);;
          console_log ("Organizations in database: " +:+ pretty orgCount))
       (fun error => console_error "Error:" (Some error)))
    (destroy;;
     console_log "Database connection closed").

(** The [try] block of [main], as it stands in [main]. *)
Definition main_try : M unit :=
  ltac:(let m := eval unfold main in main in
        match m with try_finally (try_catch ?body _) _ => exact body end).

(** * Vocabulary of the statements *)

(** [keeps R m]: whatever [m] does, the world it leaves is [R]-related to
    the world it started in. For a preorder [R] this goes through every
    way of composing computations. *)
Definition keeps {A} (R : relation World) (m : M A) : Prop :=
  forall w r w', m w = (r, w') -> R w w'.

(** The trace grows by events that all satisfy [P]. *)
Definition emits (P : Event -> Prop) : relation World :=
  fun w w' => exists evs, trace w' = trace w ++ evs /\ Forall P evs.

(** The field [f] of the world is left as it was. *)
Definition same {X} (f : World -> X) : relation World :=
  fun w w' => f w' = f w.

(** The attempt numbers with which the operation was called, and the
    delays that were awaited, in order. *)
Definition invocations (tr : list Event) : list Z :=
  omap (fun ev => match ev with Invoke attempt => Some attempt | _ => None end) tr.
Definition delays (tr : list Event) : list Z :=
  omap (fun ev => match ev with Timer ms => Some ms | _ => None end) tr.

(** How many times the connection was destroyed. *)
Definition destroys (tr : list Event) : nat :=
  length (omap (fun ev => match ev with Destroy => Some tt | _ => None end) tr).

(** What one file's ingestion may do while it reads, and while it writes. *)
Definition reading_event (filePath : string) (ev : Event) : Prop :=
  match ev with
  | Open p => p = filePath
  | Data _ | End_ | ParserError _ => True
  | _ => False
  end.

Definition writing_event (tableName : string) (batch : list Record_) (ev : Event) : Prop :=
  match ev with
  | Invoke _ | Timer _ => True
  | Sql Begin | Sql Commit | Sql Rollback => True
  | Sql (Insert t record) => t = tableName /\ record ∈ batch
  | ConsoleLog line =>
      (exists n, line = progress_line n tableName)
      \/ (exists n, line = finished_line n tableName)
      \/ (exists attempt, line = retry_notice 1000 attempt 5)
  | _ => False
  end.

(** What every attempt to write [batch] into [tableName] leaves alone, as
    long as it fails: the batch, the tables, the files. *)
Definition failed_attempts (tableName : string) (batch : list Record_) : relation World :=
  fun w w' =>
    records w = batch ->
    records w' = batch /\ tables w' = tables w
    /\ files w' = files w /\ dirname w' = dirname w
    /\ emits (writing_event tableName batch) w w'.

Definition row_count (tableName : string) (w : World) : option nat :=
  (fun t => length (rows t)) <$> tables w !! tableName.

(** The world in which the ['end'] listener starts when the file at
    [filePath] parsed to [batch]. *)
Definition at_end (filePath : string) (batch : list Record_) (w w0 : World) : Prop :=
  trace w0 = trace w ++ Open filePath :: (Data <$> batch) ++ [End_]
  /\ records w0 = batch /\ totalInserted w0 = 0
  /\ tables w0 = tables w /\ faults w0 = faults w
  /\ files w0 = files w /\ dirname w0 = dirname w.

(** The primary-key column of a table, read in insertion order. *)
Definition key_column (t : Table) : list (option string) :=
  record_get (primaryKey t) <$> rows t.

(** Everything one file's ingestion may do. *)
Definition ingestion_event (filePath tableName : string) (ev : Event) : Prop :=
  reading_event filePath ev \/ exists batch, writing_event tableName batch ev.

(** The events that belong to the second configured pair. *)
Definition organizations_event (w : World) (ev : Event) : Prop :=
  match ev with
  | Open p => p = organizations_csv w
  | Sql (Insert t _) | Sql (CountRows t) => t = "organizations"
  | ConsoleLog line => line = "Starting to insert organizations"
  | _ => False
  end.

(** The [finally] block. *)
Definition closing (w : World) : World :=
  emit (ConsoleLog "Database connection closed") (emit Destroy w).

(** What the liveness probe may do. *)
Definition probe_event (ev : Event) : Prop :=
  match ev with
  | Sql SelectOne => True
  | ConsoleLog line => line = "Database connected successfully"
  | ConsoleError line _ => line = "Database connection failed:"
  | _ => False
  end.

(** The files stay as they are and the trace grows by [P]-events. *)
Definition steady (P : Event -> Prop) : relation World :=
  fun w w' => files w' = files w /\ dirname w' = dirname w /\ emits P w w'.

(** Both input files are where [main] looks for them. *)
Definition inputs_exist (w : World) : Prop :=
  is_Some (files w !! customers_csv w) /\ is_Some (files w !! organizations_csv w).

(** Started in [w] with the input files in place, [m] does not crash, does
    not touch the files and does not destroy the connection. *)
Definition sound_at {A} (w : World) (m : M A) : Prop :=
  forall r w', inputs_exist w -> m w = (r, w') ->
    steady (fun ev => ev <> Destroy) w w' /\ forall e, r <> Crash e.
Definition sound {A} (m : M A) : Prop := forall w, sound_at w m.

(** An operation that fails with the engine's lock condition whenever it
    is called. *)
Definition always_busy {T} (operation : M T) : Prop :=
  forall w, exists e w', operation w = (Err e, w') /\ code e = Some "SQLITE_BUSY".

(** An operation that neither calls itself through the controller nor
    sleeps: it leaves the record of invocations and delays alone. *)
Definition quiet {T} (operation : M T) : Prop :=
  keeps (same (fun w => invocations (trace w))) operation
  /\ keeps (same (fun w => delays (trace w))) operation.

(** * Scenarios *)

Definition nl : string := String LF EmptyString.

(** A directory with no files and a database with no tables. *)
Definition bare_world : World := mkWorld "/app/src" ∅ ∅ [] [] [] 0.

(** An operation that finds the database locked every time. *)
Definition locked : M unit := throw sqlite_busy.

(** An operation that runs into a duplicate primary key. *)
Definition duplicate_key : M unit :=
  throw (sqlite_constraint "customers" "Customer Id").

(** Scenario A: header, two rows, a blank line, a third row. *)
Definition people_csv : string :=
  "id,name" +:+ nl +:+ "1,Alice" +:+ nl +:+ "2,Bob" +:+ nl +:+ nl +:+ "3,Carol" +:+ nl.

Definition alice : Record_ := [("id", "1"); ("name", "Alice")].
Definition bob : Record_ := [("id", "2"); ("name", "Bob")].
Definition carol : Record_ := [("id", "3"); ("name", "Carol")].

(** An empty table [people] keyed by [id], the file of scenario A, and a
    schedule of engine faults. *)
Definition people_world (fs : list (option JsError)) : World :=
  mkWorld "/app/src" {[ "people.csv" := people_csv ]}
          {[ "people" := mkTable "id" [] ]} fs [] [] 0.

(** The same table when the batch in memory repeats a primary key. *)
Definition bob_again : Record_ := [("id", "1"); ("name", "Bob")].
Definition clash_world : World :=
  mkWorld "/app/src" ∅ {[ "people" := mkTable "id" [] ]} [] [] [alice; bob_again] 0.

(** Scenario B: the second row of the first file repeats the primary key
    of the first row. *)
Definition customers_clash_csv : string :=
  "Customer Id,First Name" +:+ nl +:+ "c1,Ann" +:+ nl +:+ "c1,Ben" +:+ nl.
Definition organizations_small_csv : string :=
  "Organization Id,Name" +:+ nl +:+ "o1,Acme" +:+ nl.

(** A file written on Windows: CR LF line ends, an empty line, and a
    quoted field that holds a comma and a doubled quote. *)
Definition crlf : string := String CR (String LF EmptyString).
Definition dq : string := String quote EmptyString.
Definition windows_csv : string :=
  "id,name" +:+ crlf
    +:+ "1," +:+ dq +:+ "Liddell, " +:+ dq +:+ dq +:+ "Alice" +:+ dq +:+ dq +:+ dq +:+ crlf
    +:+ crlf
    +:+ "2,Bob" +:+ crlf.

Definition two_files (customers organizations : string) (fs : list (option JsError)) : World :=
  mkWorld "/app/src"
          {[ "/app/src/../tmp/extracted/dump/customers.csv" := customers;
             "/app/src/../tmp/extracted/dump/organizations.csv" := organizations ]}
          {[ "customers" := mkTable "Customer Id" [];
             "organizations" := mkTable "Organization Id" [] ]}
          fs [] [] 0.

Definition scenario_B : World := two_files customers_clash_csv organizations_small_csv [].

(** Scenario D: the engine refuses the liveness probe. *)
Definition cannot_open : JsError :=
  mkError (Some "SQLITE_CANTOPEN") "SQLITE_CANTOPEN: unable to open database file".
Definition scenario_D : World :=
  two_files customers_clash_csv organizations_small_csv [Some cannot_open].

(** A run in which nothing goes wrong. *)
Definition customers_small_csv : string :=
  "Customer Id,First Name" +:+ nl +:+ "c1,Ann" +:+ nl +:+ "c2,Ben" +:+ nl.
Definition scenario_ok : World :=
  two_files customers_small_csv organizations_small_csv [].

(** * Further vocabulary and scenarios *)

(** An operation that succeeds at once. *)
Definition ready : M Z := mret 42.

(** What the engine does with one insert, and with a batch of them, when
    no fault is scheduled: the pure reading of [insert] and of the loop
    over the records. *)
Definition insert_row (tableName : string) (t : Table) (record : Record_) : JsError + Table :=
  if pk_taken t record then inl (sqlite_constraint tableName (primaryKey t))
  else inr (mkTable (primaryKey t) (rows t ++ [record])).

Fixpoint insert_rows (tableName : string) (t : Table) (rs : list Record_) : JsError + Table :=
  match rs with
  | [] => inr t
  | record :: rest =>
      match insert_row tableName t record with
      | inl e => inl e
      | inr t' => insert_rows tableName t' rest
      end
  end.

(** The console lines of a trace, in order. *)
Definition logged (tr : list Event) : list string :=
  omap (fun ev => match ev with ConsoleLog line => Some line | _ => None end) tr.

(** The SQL statements of a trace, in order. *)
Definition statements (tr : list Event) : list Stmt :=
  omap (fun ev => match ev with Sql s => Some s | _ => None end) tr.

(** A file whose second data line has one field too few. *)
Definition ragged_csv : string :=
  "id,name" +:+ nl +:+ "1,Alice" +:+ nl +:+ "2" +:+ nl +:+ "3,Carol" +:+ nl.
Definition ragged_world : World :=
  mkWorld "/app/src" {[ "people.csv" := ragged_csv ]}
          {[ "people" := mkTable "id" [] ]} [] [] [] 0.

(** A file with a header and blank lines only, and no table to load into. *)
Definition header_only_csv : string := nl +:+ "id,name" +:+ nl +:+ nl.
Definition header_only_world : World :=
  mkWorld "/app/src" {[ "people.csv" := header_only_csv ]} ∅
          [Some sqlite_busy] [] [] 0.

(** A file whose second row repeats the key of the first. *)
Definition clash_csv : string :=
  "id,name" +:+ nl +:+ "1,Alice" +:+ nl +:+ "1,Bob" +:+ nl.
Definition clash_file_world : World :=
  mkWorld "/app/src" {[ "people.csv" := clash_csv ]}
          {[ "people" := mkTable "id" [] ]} [] [] [] 0.

(** The progress lines due while the counter goes from [from] up by [n]:
    one for every count reached that is a multiple of 1000. *)
Definition milestones (tableName : string) (from : Z) (n : nat) : list string :=
  (fun k => progress_line k tableName)
    <$> filter (fun k => k mod 1000 = 0) (seqZ (from + 1) (Z.of_nat n)).

(** From [w] to [w'] rows were only added, and only to [tableName]: every
    table keeps its key column and its rows, in order, at the front; the
    other tables are as they were; no table appears or disappears. *)
Definition appends_to (tableName : string) : relation World :=
  fun w w' =>
    forall name,
      match tables w !! name with
      | Some t =>
          exists added,
            tables w' !! name = Some (mkTable (primaryKey t) (rows t ++ added))
            /\ (name <> tableName -> added = [])
      | None => tables w' !! name = None
      end.

(** A second file whose second row repeats the key of its first, after a
    first file that loads. *)
Definition organizations_clash_csv : string :=
  "Organization Id,Name" +:+ nl +:+ "o1,Acme" +:+ nl +:+ "o1,Apex" +:+ nl.
Definition scenario_late_clash : World :=
  two_files customers_small_csv organizations_clash_csv [].

(** How a run of [main] ends when both files were loaded: the two count
    queries, the two lines that report them, the cleanup. *)
Definition closing_events (customerCount orgCount : Z) : list Event :=
  [ Sql (CountRows "customers");
    Sql (CountRows "organizations");
    ConsoleLog ("Customers in database: " +:+ pretty customerCount);
    ConsoleLog ("Organizations in database: " +:+ pretty orgCount);
    Destroy;
    ConsoleLog "Database connection closed" ].

(** * The migrations *)

(** The columns a migration declares: [table.integer(name)],
    [table.string(name)], [table.date(name)], and [.primary()] on one of
    them. *)
Inductive ColumnType := integer | string_ | date.

Record Column := mkColumn {
  colType : ColumnType;
  colName : string;
  primary : bool
}.

(** The schema of the database: the tables that exist, with their columns. *)
Abbreviation Schema := (gmap string (list Column)).

Definition table_exists (tableName : string) : JsError :=
  mkError (Some "SQLITE_ERROR")
          ("SQLITE_ERROR: table `" +:+ tableName +:+ "` already exists").

(** [knex.schema.createTable(name, builder)]: a plain [create table],
    which the engine refuses when the table is there. *)
Definition createTable (tableName : string) (columns : list Column)
    (s : Schema) : JsError + Schema :=
  match s !! tableName with
  | Some _ => inl (table_exists tableName)
  | None => inr (<[tableName := columns]> s)
  end.

(** [knex.schema.dropTable(name)]: a plain [drop table], which the engine
    refuses when the table is missing. *)
Definition dropTable (tableName : string) (s : Schema) : JsError + Schema :=
  match s !! tableName with
  | Some _ => inr (delete tableName s)
  | None => inl (no_such_table tableName)
  end.

(** One migration after another; the first failure ends the sequence. *)
Definition and_then (r : JsError + Schema) (f : Schema -> JsError + Schema)
    : JsError + Schema :=
  match r with
  | inl e => inl e
  | inr s => f s
  end.

Module customers_migration.
Definition up : Schema -> JsError + Schema :=
  createTable "customers"
    [ mkColumn integer "Index" false;
      mkColumn string_ "Customer Id" true;
      mkColumn string_ "First Name" false;
      mkColumn string_ "Last Name" false;
      mkColumn string_ "Company" false;
      mkColumn string_ "City" false;
      mkColumn string_ "Country" false;
      mkColumn string_ "Phone 1" false;
      mkColumn string_ "Phone 2" false;
      mkColumn string_ "Email" false;
      mkColumn date "Subscription Date" false;
      mkColumn string_ "Website" false ].

Definition down : Schema -> JsError + Schema := dropTable "customers".
End customers_migration.

Module organizations_migration.
Definition up : Schema -> JsError + Schema :=
  createTable "organizations"
    [ mkColumn integer "Index" false;
      mkColumn string_ "Organization Id" true;
      mkColumn string_ "Name" false;
      mkColumn string_ "Website" false;
      mkColumn string_ "Country" false;
      mkColumn string_ "Description" false;
      mkColumn integer "Founded" false;
      mkColumn string_ "Industry" false;
      mkColumn integer "Number of employees" false ].

Definition down : Schema -> JsError + Schema := dropTable "organizations".
End organizations_migration.

(** A file of [n] rows with the keys 1, ..., n, and its records. *)
Definition numbered_csv (n : nat) : string :=
  "id" +:+ nl
    +:+ fold_right (fun k s => pretty k +:+ nl +:+ s) EmptyString (seqZ 1 (Z.of_nat n)).
Definition numbered_rows (n : nat) : list Record_ :=
  (fun k => [("id", pretty k)]) <$> seqZ 1 (Z.of_nat n).
Definition numbered_world (n : nat) : World :=
  mkWorld "/app/src" {[ "people.csv" := numbered_csv n ]}
          {[ "people" := mkTable "id" [] ]} [] [] [] 0.
(** * Reasoning principles *)

(** ** Running a computation step by step *)

Lemma bind_run {A B} (m : M A) (f : A -> M B) (w : World) :
  (m ≫= f) w =
  match m w with
  | (Ok a, w') => f a w'
  | (Err e, w') => (Err e, w')
  | (Crash e, w') => (Crash e, w')
  end.
Proof. reflexivity. Qed.

Lemma bind_ok {A B} (m : M A) (f : A -> M B) w a w1 :
  m w = (Ok a, w1) -> (m ≫= f) w = f a w1.
Proof. intros H. rewrite bind_run, H. reflexivity. Qed.

Lemma bind_err {A B} (m : M A) (f : A -> M B) w e w1 :
  m w = (Err e, w1) -> (m ≫= f) w = (Err e, w1).
Proof. intros H. rewrite bind_run, H. reflexivity. Qed.

Lemma bind_crash {A B} (m : M A) (f : A -> M B) w e w1 :
  m w = (Crash e, w1) -> (m ≫= f) w = (Crash e, w1).
Proof. intros H. rewrite bind_run, H. reflexivity. Qed.

Lemma bind_inv {A B} (m : M A) (f : A -> M B) w r w' :
  (m ≫= f) w = (r, w') ->
  (exists a w1, m w = (Ok a, w1) /\ f a w1 = (r, w'))
  \/ (exists e, m w = (Err e, w') /\ r = Err e)
  \/ (exists e, m w = (Crash e, w') /\ r = Crash e).
Proof.
  rewrite bind_run. destruct (m w) as [[a|e|e] w1]; intros H.
  - left. eauto.
  - right. left. inversion H. eauto.
  - right. right. inversion H. eauto.
Qed.

Lemma try_catch_inv {A} (body : M A) (handler : JsError -> M A) w r w' :
  try_catch body handler w = (r, w') ->
  (exists e w1, body w = (Err e, w1) /\ handler e w1 = (r, w'))
  \/ (body w = (r, w') /\ forall e, r <> Err e).
Proof.
  unfold try_catch. destruct (body w) as [[a|e|e] w1]; intros H.
  - right. inversion H. split; [reflexivity | discriminate].
  - left. eauto.
  - right. inversion H. split; [reflexivity | discriminate].
Qed.

Ltac list_norm := repeat (rewrite <- app_assoc || rewrite <- app_comm_cons).

(** ** Relations between the world before and the world after *)

#[global] Instance emits_preorder P : PreOrder (emits P).
Proof.
  split.
  - intros w. exists []. rewrite app_nil_r. auto.
  - intros w1 w2 w3 (e1 & H1 & F1) (e2 & H2 & F2). exists (e1 ++ e2).
    rewrite H2, H1, app_assoc. split; [reflexivity | by apply Forall_app].
Qed.

Lemma emits_weaken (P Q : Event -> Prop) w w' :
  (forall ev, P ev -> Q ev) -> emits P w w' -> emits Q w w'.
Proof.
  intros HPQ (evs & H & F). exists evs. split; [assumption |].
  eapply Forall_impl; eassumption.
Qed.

(** * The retry controller *)

Lemma lt_num_int (a z : Z) : lt_num a z = bool_decide (a < z).
Proof. reflexivity. Qed.

Lemma le_num_int (a z : Z) : le_num a z = bool_decide (a <= z).
Proof. reflexivity. Qed.

Lemma floor_int (z : Z) : floor z = z.
Proof. reflexivity. Qed.

Section RetryBody.
Context {T : Type} (operation : M T) (maxRetries : Number_) (delayMs : Z).

Lemma retryBody_returns attempt w v w1 :
  operation (emit (Invoke attempt) w) = (Ok v, w1) ->
  retryBody operation maxRetries delayMs attempt w = (Ok (Some v), w1).
Proof.
  intros H. unfold retryBody, try_catch.
  rewrite (bind_ok _ _ w tt (emit (Invoke attempt) w)) by reflexivity.
  rewrite (bind_ok _ _ _ v w1) by assumption. reflexivity.
Qed.

Lemma retryBody_crashes attempt w e w1 :
  operation (emit (Invoke attempt) w) = (Crash e, w1) ->
  retryBody operation maxRetries delayMs attempt w = (Crash e, w1).
Proof.
  intros H. unfold retryBody, try_catch.
  rewrite (bind_ok _ _ w tt (emit (Invoke attempt) w)) by reflexivity.
  rewrite (bind_crash _ _ _ e w1) by assumption. reflexivity.
Qed.

Lemma retryBody_throws attempt w e w1 :
  operation (emit (Invoke attempt) w) = (Err e, w1) ->
  is_busy e && lt_num attempt maxRetries = false ->
  retryBody operation maxRetries delayMs attempt w = (Err e, w1).
Proof.
  intros H Hc. unfold retryBody, try_catch.
  rewrite (bind_ok _ _ w tt (emit (Invoke attempt) w)) by reflexivity.
  rewrite (bind_err _ _ _ e w1) by assumption. rewrite Hc. reflexivity.
Qed.

Lemma retryBody_waits attempt w e w1 :
  operation (emit (Invoke attempt) w) = (Err e, w1) ->
  is_busy e = true -> lt_num attempt maxRetries = true ->
  retryBody operation maxRetries delayMs attempt w
  = (Ok None, emit (Timer delayMs) (emit (ConsoleLog (retry_notice delayMs attempt maxRetries)) w1)).
Proof.
  intros H Hb Hlt. unfold retryBody, try_catch.
  rewrite (bind_ok _ _ w tt (emit (Invoke attempt) w)) by reflexivity.
  rewrite (bind_err _ _ _ e w1) by assumption.
  rewrite Hb, Hlt. reflexivity.
Qed.

Lemma retryLoop_cons attempt rest w :
  retryLoop operation maxRetries delayMs (attempt :: rest) w =
  match retryBody operation maxRetries delayMs attempt w with
  | (Ok (Some v), w1) => (Ok v, w1)
  | (Ok None, w1) => retryLoop operation maxRetries delayMs rest w1
  | (Err e, w1) => (Err e, w1)
  | (Crash e, w1) => (Crash e, w1)
  end.
Proof.
  simpl. rewrite bind_run.
  destruct (retryBody operation maxRetries delayMs attempt w) as [[[v|]|e|e] w1];
    reflexivity.
Qed.

End RetryBody.

Section Retry.
Context {T : Type} (operation : M T) (maxRetries delayMs : Z).

Lemma retryBody_rethrows attempt w e w1 :
  operation (emit (Invoke attempt) w) = (Err e, w1) ->
  is_busy e && bool_decide (attempt < maxRetries) = false ->
  retryBody operation maxRetries delayMs attempt w = (Err e, w1).
Proof.
  intros H Hc. apply (retryBody_throws operation maxRetries delayMs _ _ e); [exact H | exact Hc].
Qed.

Lemma retryBody_retries attempt w e w1 :
  operation (emit (Invoke attempt) w) = (Err e, w1) ->
  is_busy e = true -> attempt < maxRetries ->
  retryBody operation maxRetries delayMs attempt w
  = (Ok None, emit (Timer delayMs) (emit (ConsoleLog (retry_notice delayMs attempt maxRetries)) w1)).
Proof.
  intros H Hb Hlt. apply (retryBody_waits operation maxRetries delayMs _ _ e); [exact H | exact Hb |].
  rewrite lt_num_int. by apply bool_decide_eq_true_2.
Qed.

Lemma seqZ_from (k : Z) (n : nat) :
  seqZ k (Z.of_nat (S n)) = k :: seqZ (k + 1) (Z.of_nat n).
Proof.
  rewrite seqZ_cons by lia. f_equal. f_equal; lia.
Qed.

(** With at least one attempt allowed, whatever the controller answers
    is what one call of the operation answered. *)
Lemma retryLoop_answer (n : nat) : forall k w,
  k + Z.of_nat n = maxRetries ->
  exists wl,
    retryLoop operation maxRetries delayMs (seqZ k (Z.of_nat (S n))) w = operation wl.
Proof.
  induction n as [|n IH]; intros k w Hk; rewrite seqZ_from, retryLoop_cons.
  - destruct (operation (emit (Invoke k) w)) as [[v|e|e] w1] eqn:Hop.
    + rewrite (retryBody_returns _ _ _ _ _ _ _ Hop). eauto.
    + rewrite (retryBody_rethrows _ _ _ _ Hop); [eauto |].
      rewrite bool_decide_eq_false_2 by lia. apply andb_false_r.
    + rewrite (retryBody_crashes _ _ _ _ _ _ _ Hop). eauto.
  - destruct (operation (emit (Invoke k) w)) as [[v|e|e] w1] eqn:Hop.
    + rewrite (retryBody_returns _ _ _ _ _ _ _ Hop). eauto.
    + destruct (is_busy e) eqn:Hb.
      * rewrite (retryBody_retries _ _ _ _ Hop Hb) by lia. apply IH. lia.
      * rewrite (retryBody_rethrows _ _ _ _ Hop); [eauto | by rewrite Hb].
    + rewrite (retryBody_crashes _ _ _ _ _ _ _ Hop). eauto.
Qed.

Lemma invocations_emit_invoke k w :
  invocations (trace (emit (Invoke k) w)) = invocations (trace w) ++ [k].
Proof. unfold invocations. simpl. rewrite omap_app. reflexivity. Qed.

Lemma retryLoop_always_busy (n : nat) : forall k w,
  always_busy operation -> quiet operation ->
  k + Z.of_nat n = maxRetries ->
  exists e wl w',
    retryLoop operation maxRetries delayMs (seqZ k (Z.of_nat (S n))) w = (Err e, w')
    /\ operation wl = (Err e, w')
    /\ code e = Some "SQLITE_BUSY"
    /\ invocations (trace w') = invocations (trace w) ++ seqZ k (Z.of_nat (S n))
    /\ delays (trace w') = delays (trace w) ++ replicate n delayMs.
Proof.
  induction n as [|n IH]; intros k w Hbusy [Hqi Hqd] Hk;
    rewrite seqZ_from, retryLoop_cons;
    destruct (Hbusy (emit (Invoke k) w)) as (e & w1 & Hop & He);
    pose proof (Hqi _ _ _ Hop) as Hi; pose proof (Hqd _ _ _ Hop) as Hd;
    unfold same in Hi, Hd; rewrite invocations_emit_invoke in Hi.
  - rewrite (retryBody_rethrows _ _ _ _ Hop).
    + exists e, (emit (Invoke k) w), w1. repeat split; try assumption.
      simpl. rewrite Hd. unfold delays. simpl. rewrite omap_app, app_nil_r.
      simpl. by rewrite app_nil_r.
    + rewrite bool_decide_eq_false_2 by lia. apply andb_false_r.
  - assert (Hb : is_busy e = true) by (by apply bool_decide_eq_true_2).
    rewrite (retryBody_retries _ _ _ _ Hop Hb) by lia.
    set (w2 := emit (Timer delayMs) (emit (ConsoleLog (retry_notice delayMs k maxRetries)) w1)).
    destruct (IH (k + 1) w2 Hbusy (conj Hqi Hqd) ltac:(lia))
      as (e' & wl & w' & Hrun & Hlast & He' & Hinv & Hdel).
    exists e', wl, w'. repeat split; try assumption.
    + rewrite Hinv. unfold w2, invocations. simpl.
      rewrite !omap_app. simpl. rewrite !app_nil_r.
      fold (invocations (trace w1)). rewrite Hi.
      rewrite <- app_assoc. simpl. by rewrite <- seqZ_from.
    + rewrite Hdel. unfold w2, delays. simpl.
      rewrite !omap_app. simpl. rewrite !app_nil_r.
      fold (delays (trace w1)). rewrite Hd.
      unfold delays. simpl. rewrite omap_app. simpl. rewrite app_nil_r.
      by rewrite <- app_assoc.
Qed.
End Retry.

(** ** Bounds that are not whole numbers *)

Lemma shift_mul (k : nat) : forall a, shift (10 * a) k = 10 * shift a k.
Proof. induction k as [|k IH]; intros a; cbn [shift]; [reflexivity | by rewrite IH]. Qed.

Lemma shift_le_unshift (k : nat) : forall a m, shift a k <= m <-> a <= unshift m k.
Proof.
  induction k as [|k IH]; intros a m; cbn [shift unshift]; [reflexivity |].
  rewrite <- shift_mul, IH. split; intros H.
  - apply Z.div_le_lower_bound; lia.
  - pose proof (Z.mul_div_le (unshift m k) 10 ltac:(lia)). lia.
Qed.

Lemma shift_lt (k : nat) : forall a b, a < b -> shift a k < shift b k.
Proof. induction k as [|k IH]; intros a b H; cbn [shift]; [exact H |]. specialize (IH a b H). lia. Qed.

Lemma le_num_floor a n : le_num a n = true -> a <= floor n.
Proof.
  destruct n as [m k| |]; cbn; try discriminate.
  intros H. apply bool_decide_eq_true_1 in H. by apply shift_le_unshift.
Qed.


Lemma lt_num_below a n : 1 <= a -> a < floor n -> lt_num a n = true.
Proof.
  destruct n as [m k| |]; cbn; try lia.
  intros _ H. apply bool_decide_eq_true_2.
  assert (H1 : shift (a + 1) k <= m) by (apply shift_le_unshift; lia).
  pose proof (shift_lt k a (a + 1) ltac:(lia)). lia.
Qed.

Lemma lt_num_floor n :
  lt_num (floor n) n = match n with Decimal _ _ => negb (is_integer n) | _ => false end.
Proof.
  destruct n as [m k| |]; cbn; try reflexivity.
  assert (H : shift (unshift m k) k <= m) by (by apply shift_le_unshift).
  destruct (decide (shift (unshift m k) k = m)) as [He | Hne].
  - rewrite bool_decide_eq_false_2 by lia. by rewrite bool_decide_eq_true_2.
  - rewrite bool_decide_eq_true_2 by lia. by rewrite bool_decide_eq_false_2.
Qed.

Lemma lt_num_last n : 1 <= floor n -> lt_num (floor n) n = negb (is_integer n).
Proof. intros H. rewrite lt_num_floor. destruct n; cbn in *; [reflexivity | lia | lia]. Qed.

Section RetryNumber.
Context {T : Type} (operation : M T) (maxRetries : Number_) (delayMs : Z).


Lemma retryLoop_busy (n : nat) : forall k w,
  always_busy operation -> quiet operation ->
  1 <= k -> k + Z.of_nat n = floor maxRetries ->
  exists r w',
    retryLoop operation maxRetries delayMs (seqZ k (Z.of_nat (S n))) w = (Err r, w')
    /\ invocations (trace w') = invocations (trace w) ++ seqZ k (Z.of_nat (S n))
    /\ if is_integer maxRetries
       then (exists wl, operation wl = (Err r, w')) /\ code r = Some "SQLITE_BUSY"
            /\ delays (trace w') = delays (trace w) ++ replicate n delayMs
       else r = exhausted maxRetries
            /\ delays (trace w') = delays (trace w) ++ replicate (S n) delayMs.
Proof.
  induction n as [|n IH]; intros k w Hbusy [Hqi Hqd] Hk Hsum;
    rewrite seqZ_from, retryLoop_cons;
    destruct (Hbusy (emit (Invoke k) w)) as (e & w1 & Hop & He);
    pose proof (Hqi _ _ _ Hop) as Hi; pose proof (Hqd _ _ _ Hop) as Hd;
    unfold same in Hi, Hd; rewrite invocations_emit_invoke in Hi;
    assert (Hb : is_busy e = true) by (by apply bool_decide_eq_true_2);
    assert (Hd1 : delays (trace w1) = delays (trace w))
      by (rewrite Hd; unfold delays; cbn; rewrite omap_app; cbn; apply app_nil_r).
  - assert (Hlast : lt_num k maxRetries = negb (is_integer maxRetries)).
    { replace k with (floor maxRetries) by lia. apply lt_num_last. lia. }
    destruct (is_integer maxRetries) eqn:Hint; cbn [negb] in Hlast.
    + rewrite (retryBody_throws _ _ _ _ _ _ _ Hop) by (rewrite Hlast; apply andb_false_r).
      exists e, w1. split; [reflexivity |]. split; [exact Hi |].
      split; [eauto |]. split; [exact He |]. cbn. by rewrite app_nil_r.
    + rewrite (retryBody_waits _ _ _ _ _ _ _ Hop Hb Hlast).
      change (seqZ (k + 1) (Z.of_nat 0)) with (@nil Z). cbn [retryLoop].
      eexists _, _. split; [reflexivity |]. split.
      * unfold invocations in *. cbn. rewrite !omap_app. cbn. rewrite !app_nil_r. exact Hi.
      * split; [reflexivity |]. unfold delays in *. cbn. rewrite !omap_app. cbn.
        rewrite app_nil_r. by rewrite Hd1.
  - rewrite (retryBody_waits _ _ _ _ _ _ _ Hop Hb) by (apply lt_num_below; lia).
    set (w2 := emit (Timer delayMs) (emit (ConsoleLog (retry_notice delayMs k maxRetries)) w1)).
    destruct (IH (k + 1) w2 Hbusy (conj Hqi Hqd) ltac:(lia) ltac:(lia))
      as (r & w' & Hrun & Hinv & Hrest).
    assert (Hi2 : invocations (trace w2) = invocations (trace w) ++ [k]).
    { unfold w2, invocations in *. cbn. rewrite !omap_app. cbn. rewrite !app_nil_r. exact Hi. }
    assert (Hd2 : delays (trace w2) = delays (trace w) ++ [delayMs]).
    { unfold w2, delays in *. cbn. rewrite !omap_app. cbn. rewrite app_nil_r. by rewrite Hd1. }
    exists r, w'. split; [exact Hrun |]. split.
    + rewrite Hinv, Hi2, <- app_assoc. cbn [app]. by rewrite <- seqZ_from.
    + destruct (is_integer maxRetries).
      * destruct Hrest as (Hwl & Hcode & Hdel). split; [exact Hwl |]. split; [exact Hcode |].
        rewrite Hdel, Hd2, <- app_assoc. reflexivity.
      * destruct Hrest as (-> & Hdel). split; [reflexivity |].
        rewrite Hdel, Hd2, <- app_assoc. reflexivity.
Qed.
End RetryNumber.

(** ** What the controller adds around the operation *)

Section RetryInvariant.
Context {T : Type} (operation : M T) (maxRetries delayMs : Z).
Context (R : relation World) `{!PreOrder R}.
Hypothesis R_invoke : forall w attempt, R w (emit (Invoke attempt) w).
Hypothesis R_notice : forall w attempt,
  R w (emit (ConsoleLog (retry_notice delayMs attempt maxRetries)) w).
Hypothesis R_timer : forall w, R w (emit (Timer delayMs) w).

Lemma retryBody_outcome attempt w r w' :
  retryBody operation maxRetries delayMs attempt w = (r, w') ->
  let w0 := emit (Invoke attempt) w in
  (exists v, operation w0 = (Ok v, w') /\ r = Ok (Some v))
  \/ (exists e, operation w0 = (Crash e, w') /\ r = Crash e)
  \/ (exists e, operation w0 = (Err e, w') /\ r = Err e)
  \/ (exists e w1, operation w0 = (Err e, w1) /\ r = Ok None
        /\ w' = emit (Timer delayMs)
                  (emit (ConsoleLog (retry_notice delayMs attempt maxRetries)) w1)).
Proof.
  intros H w0. destruct (operation w0) as [[v|e|e] w1] eqn:Hop.
  - rewrite (retryBody_returns _ _ _ _ _ _ _ Hop) in H. inversion H. left. eauto.
  - destruct (is_busy e && bool_decide (attempt < maxRetries)) eqn:Hc.
    + apply andb_true_iff in Hc as [Hb Hlt]. apply bool_decide_eq_true_1 in Hlt.
      rewrite (retryBody_retries _ _ _ _ _ _ _ Hop Hb Hlt) in H. inversion H.
      right. right. right. eauto 6.
    + rewrite (retryBody_rethrows _ _ _ _ _ _ _ Hop Hc) in H. inversion H.
      right. right. left. eauto.
  - rewrite (retryBody_crashes _ _ _ _ _ _ _ Hop) in H. inversion H.
    right. left. eauto.
Qed.

(** A property that every failed call of the operation keeps holds of the
    world in which the deciding call is made. *)
Lemma retryLoop_deciding_call attempts :
  (forall w e w', operation w = (Err e, w') -> R w w') ->
  forall w r w',
    retryLoop operation maxRetries delayMs attempts w = (r, w') ->
    exists w0, R w w0
      /\ (operation w0 = (r, w') \/ (r = Err (exhausted maxRetries) /\ w' = w0)).
Proof.
  intros Hfail. induction attempts as [|attempt rest IH]; intros w r w' H.
  - inversion H; subst. eexists. split; [reflexivity | right; auto].
  - rewrite retryLoop_cons in H.
    destruct (retryBody operation maxRetries delayMs attempt w) as [rb wb] eqn:Hb.
    apply retryBody_outcome in Hb
      as [(v & Ho & ->) | [(e & Ho & ->) | [(e & Ho & ->) | (e & w1 & Ho & -> & ->)]]].
    + inversion H; subst. exists (emit (Invoke attempt) w). split; [apply R_invoke | auto].
    + inversion H; subst. exists (emit (Invoke attempt) w). split; [apply R_invoke | auto].
    + inversion H; subst. exists (emit (Invoke attempt) w). split; [apply R_invoke | auto].
    + apply IH in H as (w0 & HR & Hlast). exists w0. split; [| assumption].
      etransitivity; [apply R_invoke |].
      etransitivity; [eapply Hfail; eassumption |].
      etransitivity; [apply R_notice |].
      etransitivity; [apply R_timer | exact HR].
Qed.
End RetryInvariant.

(** ** The database handle *)

Lemma submit_spec s w r w' :
  submit s w = (r, w') ->
  w' = set_faults (tail (faults w)) (emit (Sql s) w)
  /\ match r with
     | Ok _ => True
     | Err e => head (faults w) = Some (Some e)
     | Crash _ => False
     end.
Proof.
  unfold submit, next_fault, mbind, M_bind, do_, mret, M_ret, throw. cbn.
  destruct (faults w) as [|[e|] fs] eqn:Hf; cbn; intros H; inversion H; subst;
    split; try reflexivity; try exact I.
  unfold set_faults, emit. cbn. by rewrite Hf.
Qed.

Lemma insert_spec tableName record w r w' :
  insert tableName record w = (r, w') ->
  trace w' = trace w ++ [Sql (Insert tableName record)]
  /\ records w' = records w /\ totalInserted w' = totalInserted w
  /\ files w' = files w /\ dirname w' = dirname w
  /\ faults w' = tail (faults w)
  /\ match r with
     | Ok _ =>
         exists t, tables w !! tableName = Some t /\ pk_taken t record = false
           /\ tables w' = <[tableName := mkTable (primaryKey t) (rows t ++ [record])]> (tables w)
     | Err e => tables w' = tables w
     | Crash _ => False
     end.
Proof.
  unfold insert. intros H.
  apply bind_inv in H as [(a & w1 & H1 & H2) | [(e & H1 & ->) | (e & H1 & ->)]];
    apply submit_spec in H1 as [-> Hr]; try (repeat split; reflexivity); try contradiction.
  rewrite bind_run in H2. cbn in H2.
  destruct (tables w !! tableName) as [t|] eqn:Ht; cbn in H2.
  - destruct (pk_taken t record) eqn:Hpk; cbn in H2; inversion H2; subst; cbn;
      repeat split; try reflexivity; eauto.
  - inversion H2; subst; cbn; repeat split; reflexivity.
Qed.

Lemma emits_emit (P : Event -> Prop) ev w : P ev -> emits P w (emit ev w).
Proof. intros H. exists [ev]. split; [reflexivity | by constructor]. Qed.

Lemma insert_same_table (tableName : string) (t : Table) (ts : gmap string Table) :
  ts !! tableName = Some t ->
  <[tableName := mkTable (primaryKey t) (rows t ++ [])]> ts = ts.
Proof.
  intros H. rewrite app_nil_r. apply insert_id. rewrite H. by destruct t.
Qed.

Lemma insertRecords_spec tableName batch : forall rs w r w',
  (forall record, record ∈ rs -> record ∈ batch) ->
  insertRecords tableName rs w = (r, w') ->
  records w' = records w /\ files w' = files w /\ dirname w' = dirname w
  /\ emits (writing_event tableName batch) w w'
  /\ match r with
     | Ok _ =>
         totalInserted w' = totalInserted w + Z.of_nat (length rs)
         /\ forall t, tables w !! tableName = Some t ->
              tables w' = <[tableName := mkTable (primaryKey t) (rows t ++ rs)]> (tables w)
     | Err _ => True
     | Crash _ => False
     end.
Proof.
  induction rs as [|record rest IH]; intros w r w' Hin H.
  - inversion H; subst. repeat split; try reflexivity.
    + cbn. lia.
    + intros t Ht. symmetry. by apply insert_same_table.
  - cbn [insertRecords] in H.
    apply bind_inv in H as [(a & w1 & H1 & H2) | [(e & H1 & ->) | (e & H1 & ->)]];
      apply insert_spec in H1 as (Htr & Hrec & Htot & Hfil & Hdir & _ & Hres).
    2: { repeat split; try assumption. exists [Sql (Insert tableName record)].
         split; [assumption |]. constructor; [| constructor].
         split; [reflexivity | apply Hin; left]. }
    2: contradiction.
    destruct Hres as (t & Ht & _ & Htab).
    rewrite !bind_run in H2. cbn in H2.
    rewrite bind_run in H2. cbn in H2. rewrite bind_run in H2.
    set (n := totalInserted w1 + 1) in *.
    set (w2 := set_totalInserted n w1) in *.
    assert (Hstep : exists w3,
      insertRecords tableName rest w3 = (r, w')
      /\ records w3 = records w /\ files w3 = files w /\ dirname w3 = dirname w
      /\ tables w3 = tables w1 /\ totalInserted w3 = totalInserted w + 1
      /\ emits (writing_event tableName batch) w w3).
    { assert (Hins : writing_event tableName batch (Sql (Insert tableName record)))
        by (split; [reflexivity | apply Hin; left]).
      destruct (n mod 1000 =? 0)%Z; cbn in H2.
      - exists (emit (ConsoleLog (progress_line n tableName)) w2).
        repeat split; try assumption; cbn; try lia.
        exists [Sql (Insert tableName record); ConsoleLog (progress_line n tableName)].
        split; [cbn; rewrite Htr, <- app_assoc; reflexivity |].
        constructor; [assumption |]. constructor; [| constructor].
        left. eauto.
      - exists w2. repeat split; try assumption; cbn; try lia.
        exists [Sql (Insert tableName record)].
        split; [assumption |]. constructor; [assumption | constructor]. }
    destruct Hstep as (w3 & Hrun & Hrec3 & Hfil3 & Hdir3 & Htab3 & Htot3 & Hev3).
    apply IH in Hrun as (Hrec' & Hfil' & Hdir' & Hev' & Hres');
      [| intros; apply Hin; by right].
    repeat split; try congruence.
    + etransitivity; eassumption.
    + destruct r as [[]|e|e]; [| exact I | contradiction].
      destruct Hres' as [Htot' Htab']. split.
      * rewrite Htot', Htot3. cbn [length]. lia.
      * intros t' Ht'. assert (t' = t) as -> by congruence.
        rewrite (Htab' (mkTable (primaryKey t) (rows t ++ [record]))).
        -- cbn. rewrite Htab3, Htab, insert_insert_eq, <- app_assoc. reflexivity.
        -- rewrite Htab3, Htab. apply lookup_insert_eq.
Qed.

Lemma insertRecords_app tableName : forall xs ys w,
  insertRecords tableName (xs ++ ys) w =
  match insertRecords tableName xs w with
  | (Ok _, w1) => insertRecords tableName ys w1
  | other => other
  end.
Proof.
  induction xs as [|x xs IH]; intros ys w; [reflexivity |].
  cbn [insertRecords app]. rewrite !bind_run.
  destruct (insert tableName x w) as [[[]|e|e] w1]; try reflexivity.
  cbn. rewrite !bind_run. cbn. rewrite !bind_run. cbn. rewrite !bind_run.
  match goal with |- context [if ?c then _ else _] => destruct c end; cbn; apply IH.
Qed.

Lemma insertRecords_stops_at tableName done record rest w w1 e w2 :
  insertRecords tableName done w = (Ok tt, w1) ->
  insert tableName record w1 = (Err e, w2) ->
  insertRecords tableName (done ++ record :: rest) w = (Err e, w2).
Proof.
  intros Hdone Hfail. rewrite insertRecords_app, Hdone.
  cbn [insertRecords]. by rewrite (bind_err _ _ _ _ _ Hfail).
Qed.

Lemma insertBatch_run tableName w :
  insertBatch tableName w =
  match insertRecords tableName (records w) (emit (Sql Begin) w) with
  | (Ok a, w') => (Ok a, emit (Sql Commit) w')
  | (Err e, w') => (Err e, emit (Sql Rollback) (set_tables (tables w) w'))
  | (Crash e, w') => (Crash e, w')
  end.
Proof. reflexivity. Qed.

Lemma insertBatch_spec tableName w r w' :
  insertBatch tableName w = (r, w') ->
  records w' = records w /\ files w' = files w /\ dirname w' = dirname w
  /\ emits (writing_event tableName (records w)) w w'
  /\ match r with
     | Ok _ =>
         totalInserted w' = totalInserted w + Z.of_nat (length (records w))
         /\ forall t, tables w !! tableName = Some t ->
              tables w' = <[tableName := mkTable (primaryKey t) (rows t ++ records w)]> (tables w)
     | Err _ => tables w' = tables w
     | Crash _ => False
     end.
Proof.
  rewrite insertBatch_run.
  destruct (insertRecords tableName (records w) (emit (Sql Begin) w))
    as [rh wh] eqn:Hh.
  apply (insertRecords_spec tableName (records w)) in Hh
    as (Hrec & Hfil & Hdir & Hev & Hres); [| auto].
  assert (Hbegin : emits (writing_event tableName (records w)) w (emit (Sql Begin) w))
    by (by apply emits_emit).
  destruct rh as [[]|e|e]; intros H; inversion H; subst; cbn; [| | contradiction].
  - repeat split; try assumption.
    + etransitivity; [exact Hbegin |]. etransitivity; [exact Hev |].
      by apply emits_emit.
    + apply Hres.
    + apply Hres.
  - repeat split; try assumption.
    etransitivity; [exact Hbegin |]. etransitivity; [exact Hev |].
    apply (emits_emit _ (Sql Rollback) (set_tables (tables w) wh)). exact I.
Qed.

#[global] Instance failed_attempts_preorder tableName batch :
  PreOrder (failed_attempts tableName batch).
Proof.
  split.
  - intros w Hw. repeat split; try assumption; reflexivity.
  - intros w1 w2 w3 H12 H23 Hw.
    destruct (H12 Hw) as (Hr & Ht & Hf & Hd & He).
    destruct (H23 Hr) as (Hr' & Ht' & Hf' & Hd' & He').
    repeat split; try congruence. etransitivity; eassumption.
Qed.

Lemma failed_attempts_emit tableName batch ev w :
  writing_event tableName batch ev -> failed_attempts tableName batch w (emit ev w).
Proof.
  intros Hev Hw. repeat split; try assumption. by apply emits_emit.
Qed.

(** The retried insertion of a whole batch: it never crashes, a failure
    leaves every table as it was, and a success has appended the batch, in
    its order, to the rows the table had before the call. *)
Lemma retry_insertBatch_spec tableName w r w' :
  retryOperation (insertBatch tableName) 5 1000 w = (r, w') ->
  records w' = records w /\ files w' = files w /\ dirname w' = dirname w
  /\ emits (writing_event tableName (records w)) w w'
  /\ match r with
     | Ok _ =>
         forall t, tables w !! tableName = Some t ->
           tables w' = <[tableName := mkTable (primaryKey t) (rows t ++ records w)]> (tables w)
     | Err _ => tables w' = tables w
     | Crash _ => False
     end.
Proof.
  intros H. unfold retryOperation in H. cbn [floor Int unshift] in H.
  eapply (retryLoop_deciding_call _ _ _ (failed_attempts tableName (records w)))
    in H as (w0 & HR & Hlast).
  - destruct (HR eq_refl) as (Hr0 & Ht0 & Hf0 & Hd0 & He0).
    destruct Hlast as [Hop | [-> ->]].
    + apply insertBatch_spec in Hop as (Hrec & Hfil & Hdir & Hev & Hres).
      rewrite Hr0 in *.
      repeat split; try congruence.
      * etransitivity; eassumption.
      * destruct r as [[]|e|e]; [| congruence | assumption].
        intros t Ht. destruct Hres as [_ Hres]. rewrite <- Ht0. apply Hres.
        by rewrite Ht0.
    + repeat split; assumption.
  - intros w1 attempt. by apply failed_attempts_emit.
  - intros w1 attempt. apply failed_attempts_emit. cbn. right. right. eauto.
  - intros w1. by apply failed_attempts_emit.
  - intros w1 e w1' Hop Hw1.
    apply insertBatch_spec in Hop as (Hrec & Hfil & Hdir & Hev & Hres).
    rewrite Hw1 in *. repeat split; assumption.
Qed.

(** ** Reading one file *)

(** ** The parser *)











Lemma feed_spec e : forall rs w r w',
  feed rs e w = (r, w') ->
  tables w' = tables w /\ faults w' = faults w /\ files w' = files w
  /\ dirname w' = dirname w /\ totalInserted w' = totalInserted w
  /\ (forall filePath, emits (reading_event filePath) w w')
  /\ match e with
     | None =>
         r = Ok tt /\ records w' = records w ++ rs
         /\ trace w' = trace w ++ (Data <$> rs)
     | Some error => r = Err error
     end.
Proof.
  induction rs as [|record rest IH]; intros w r w' H.
  - cbn [feed] in H. destruct e as [error|].
    + inversion H; subst. cbn. repeat split; try reflexivity.
      intros filePath. by apply emits_emit.
    + inversion H; subst. cbn. rewrite !app_nil_r. repeat split; reflexivity.
  - cbn [feed] in H.
    rewrite !bind_run in H. cbn in H. rewrite bind_run in H. cbn in H.
    apply IH in H as (Ht & Hfa & Hfi & Hd & Hto & Hev & Hres). cbn in *.
    repeat split; try assumption.
    + intros filePath. etransitivity; [| apply Hev].
      apply (emits_emit _ (Data record) w). exact I.
    + destruct e as [error|]; [assumption |].
      destruct Hres as (-> & Hrec & Htr). repeat split.
      * rewrite Hrec, <- app_assoc. reflexivity.
      * rewrite Htr, <- app_assoc. reflexivity.
Qed.

Lemma try_catch_rethrow {A} (body : M A) w :
  try_catch body (fun error => throw error) w = body w.
Proof. unfold try_catch. by destruct (body w) as [[a|e|e] w1]. Qed.

Lemma createReadStream_run filePath w :
  createReadStream filePath w =
  match files w !! filePath with
  | Some content => (Ok content, emit (Open filePath) w)
  | None => (Crash (enoent filePath), emit (Open filePath) w)
  end.
Proof.
  unfold createReadStream. rewrite bind_run. cbn. rewrite bind_run. cbn.
  by destruct (files w !! filePath).
Qed.

Lemma processCSVStream_missing filePath tableName w :
  files w !! filePath = None ->
  processCSVStream filePath tableName w
  = (Crash (enoent filePath),
     emit (Open filePath) (set_totalInserted 0 (set_records [] w))).
Proof.
  intros Hfile. unfold processCSVStream.
  rewrite bind_run. cbn [modify]. rewrite bind_run. cbn [modify].
  apply bind_crash.
  rewrite createReadStream_run. cbn. by rewrite Hfile.
Qed.

Lemma processCSVStream_reads filePath tableName w r w' :
  processCSVStream filePath tableName w = (r, w') ->
  match files w !! filePath with
  | None =>
      r = Crash (enoent filePath) /\ tables w' = tables w
      /\ files w' = files w /\ dirname w' = dirname w
      /\ trace w' = trace w ++ [Open filePath]
  | Some content =>
      match parse_csv content with
      | inl e =>
          r = Err e /\ tables w' = tables w
          /\ files w' = files w /\ dirname w' = dirname w
          /\ emits (reading_event filePath) w w'
      | inr batch =>
          exists w0, at_end filePath batch w w0
            /\ (retryOperation (insertBatch tableName) 5 1000;;
                n ← gets totalInserted;
                console_log (finished_line n tableName)) w0 = (r, w')
      end
  end.
Proof.
  intros H. unfold processCSVStream in H.
  rewrite (bind_ok _ _ w tt (set_records [] w)) in H by reflexivity.
  rewrite (bind_ok _ _ _ tt (set_totalInserted 0 (set_records [] w))) in H
    by reflexivity.
  rewrite bind_run, createReadStream_run in H. cbn [files set_totalInserted set_records] in H.
  destruct (files w !! filePath) as [content|] eqn:Hfile.
  2: { inversion H; subst. cbn. repeat split; reflexivity. }
  set (w1 := emit (Open filePath) (set_totalInserted 0 (set_records [] w))) in *.
  rewrite bind_run in H.
  unfold parse_csv. destruct (csv.parse content) as [batch e]. cbn [fst snd] in H.
  destruct (feed batch e w1) as [rf wf] eqn:Hfeed.
  apply feed_spec in Hfeed as (Ht & Hfa & Hfi & Hd & Hto & Hev & Hres).
  destruct e as [error|].
  - subst rf. inversion H; subst. repeat split; try assumption.
    etransitivity; [| apply Hev]. exists [Open filePath].
    split; [reflexivity | by constructor].
  - destruct Hres as (-> & Hrec & Htr).
    rewrite bind_run in H. cbn in H. rewrite try_catch_rethrow in H.
    exists (emit End_ wf). split; [| exact H]. unfold at_end. cbn.
    rewrite Htr, Hrec. cbn. rewrite <- !app_assoc. repeat split; try assumption.
Qed.

(** ** One file, from the first byte to the commit *)

Lemma processCSVStream_spec filePath tableName w r w' :
  processCSVStream filePath tableName w = (r, w') ->
  files w' = files w /\ dirname w' = dirname w
  /\ match files w !! filePath with
     | None =>
         r = Crash (enoent filePath) /\ tables w' = tables w
         /\ trace w' = trace w ++ [Open filePath]
     | Some content =>
         match parse_csv content with
         | inl e =>
             r = Err e /\ tables w' = tables w
             /\ emits (reading_event filePath) w w'
         | inr batch =>
             exists writing,
               trace w' = trace w ++ (Open filePath :: (Data <$> batch) ++ [End_]) ++ writing
               /\ Forall (writing_event tableName batch) writing
               /\ match r with
                  | Ok _ =>
                      forall t, tables w !! tableName = Some t ->
                        tables w' = <[tableName := mkTable (primaryKey t) (rows t ++ batch)]> (tables w)
                  | Err _ => tables w' = tables w
                  | Crash _ => False
                  end
         end
     end.
Proof.
  intros H. apply processCSVStream_reads in H.
  destruct (files w !! filePath) as [content|]; [| tauto].
  destruct (parse_csv content) as [e|batch]; [tauto |].
  destruct H as (w0 & (Htr0 & Hrec0 & _ & Htab0 & _ & Hfil0 & Hdir0) & H).
  apply bind_inv in H as [(a & w1 & H1 & H2) | [(e & H1 & ->) | (e & H1 & ->)]];
    apply retry_insertBatch_spec in H1 as (Hrec & Hfil & Hdir & (evs & Hevs & Fevs) & Hres);
    rewrite Hrec0 in *; try contradiction.
  - rewrite bind_run in H2. cbn in H2. inversion H2; subst. cbn.
    repeat split; try congruence.
    exists (evs ++ [ConsoleLog (finished_line (totalInserted w1) tableName)]).
    repeat split.
    + cbn. rewrite Hevs, Htr0. list_norm. reflexivity.
    + apply Forall_app. split; [assumption |]. constructor; [| constructor].
      cbn. right. left. eauto.
    + intros t Ht. rewrite <- Htab0. apply Hres. by rewrite Htab0.
  - repeat split; try congruence. exists evs. repeat split; try assumption.
    + cbn. rewrite Hevs, Htr0. list_norm. reflexivity.
    + congruence.
Qed.

(** ** The orchestrator *)

#[global] Instance steady_preorder P : PreOrder (steady P).
Proof.
  split.
  - intros w. repeat split; reflexivity.
  - intros w1 w2 w3 (Hf & Hd & He) (Hf' & Hd' & He').
    repeat split; try congruence. etransitivity; eassumption.
Qed.

Lemma steady_emit (P : Event -> Prop) ev w : P ev -> steady P w (emit ev w).
Proof. intros H. repeat split. by apply emits_emit. Qed.

Lemma steady_weaken (P Q : Event -> Prop) w w' :
  (forall ev, P ev -> Q ev) -> steady P w w' -> steady Q w w'.
Proof.
  intros HPQ (Hf & Hd & He). repeat split; try assumption.
  eapply emits_weaken; eassumption.
Qed.

Lemma keeps_submit (P : Event -> Prop) s : P (Sql s) -> keeps (steady P) (submit s).
Proof.
  intros HP w r w' H. apply submit_spec in H as [-> _].
  repeat split. apply (emits_emit P (Sql s) w) in HP.
  destruct HP as (evs & Htr & F). exists evs. split; assumption.
Qed.

Lemma count_spec tableName w r w' :
  count tableName w = (r, w') ->
  tables w' = tables w /\ (forall e, r <> Crash e)
  /\ forall P : Event -> Prop, P (Sql (CountRows tableName)) -> steady P w w'.
Proof.
  unfold count. intros H.
  apply bind_inv in H as [(a & w1 & H1 & H2) | [(e & H1 & ->) | (e & H1 & ->)]].
  - pose proof (submit_spec _ _ _ _ H1) as [-> _].
    rewrite bind_run in H2. cbn in H2.
    destruct (tables w !! tableName); inversion H2; subst;
      (split; [reflexivity |]; split; [discriminate |]);
      intros P HP; eapply keeps_submit; eassumption.
  - pose proof (submit_spec _ _ _ _ H1) as [-> _].
    split; [reflexivity |]. split; [discriminate |].
    intros P HP; eapply keeps_submit; eassumption.
  - apply submit_spec in H1 as [_ []].
Qed.

Lemma checkDatabaseConnection_spec w r w' :
  checkDatabaseConnection w = (r, w') ->
  (r = Ok true \/ r = Ok false)
  /\ tables w' = tables w /\ steady probe_event w w'.
Proof.
  unfold checkDatabaseConnection, raw_select_1. intros H.
  apply try_catch_inv in H as [(e & w1 & H1 & H2) | [H1 Hne]].
  - apply bind_inv in H1 as [(a & w2 & H1 & H3) | [(e' & H1 & He) | (e' & H1 & He)]];
      [rewrite bind_run in H3; cbn in H3; discriminate | | discriminate].
    pose proof (submit_spec _ _ _ _ H1) as [-> _].
    rewrite bind_run in H2. cbn in H2. inversion H2; subst. cbn.
    split; [by right |]. split; [reflexivity |].
    etransitivity; [eapply (keeps_submit probe_event SelectOne I); eassumption |].
    by apply steady_emit.
  - apply bind_inv in H1 as [(a & w2 & H1 & H3) | [(e' & H1 & ->) | (e' & H1 & ->)]].
    + pose proof (submit_spec _ _ _ _ H1) as [-> _].
      rewrite bind_run in H3. cbn in H3. inversion H3; subst. cbn.
      split; [by left |]. split; [reflexivity |].
      etransitivity; [eapply (keeps_submit probe_event SelectOne I); eassumption |].
      by apply steady_emit.
    + by destruct (Hne e').
    + apply submit_spec in H1 as [_ []].
Qed.

Lemma checkDatabaseConnection_run w :
  checkDatabaseConnection w
  = match head (faults w) with
    | Some (Some e) =>
        (Ok false, emit (ConsoleError "Database connection failed:" (Some e))
                     (set_faults (tail (faults w)) (emit (Sql SelectOne) w)))
    | _ =>
        (Ok true, emit (ConsoleLog "Database connected successfully")
                    (set_faults (tail (faults w)) (emit (Sql SelectOne) w)))
    end.
Proof.
  unfold checkDatabaseConnection, try_catch, raw_select_1, submit, next_fault,
    console_log, console_error, do_, throw, mbind, M_bind, mret, M_ret.
  cbn. destruct (faults w) as [|[e|] fs] eqn:Hf; cbn; try reflexivity.
  unfold set_faults, emit. cbn. by rewrite Hf.
Qed.

Lemma main_run w :
  main w =
  match main_try w with
  | (Ok _, w') => (Ok tt, closing w')
  | (Err e, w') => (Ok tt, closing (emit (ConsoleError "Error:" (Some e)) w'))
  | (Crash e, w') => (Crash e, w')
  end.
Proof.
  change main with
    (try_finally
       (try_catch main_try (fun error => console_error "Error:" (Some error)))
       (destroy;; console_log "Database connection closed")).
  unfold try_finally, try_catch.
  destruct (main_try w) as [[[]|e|e] w1]; reflexivity.
Qed.

Lemma ingestion_event_not_destroy filePath tableName ev :
  ingestion_event filePath tableName ev -> ev <> Destroy.
Proof. intros [H | [batch H]] ->; exact H. Qed.

Lemma processCSVStream_steady filePath tableName w r w' :
  processCSVStream filePath tableName w = (r, w') ->
  steady (ingestion_event filePath tableName) w w'
  /\ (is_Some (files w !! filePath) -> forall e, r <> Crash e).
Proof.
  intros H. apply processCSVStream_spec in H as (Hf & Hd & H).
  destruct (files w !! filePath) as [content|].
  - destruct (parse_csv content) as [e|batch].
    + destruct H as (-> & _ & He). split; [| discriminate].
      repeat split; try assumption.
      eapply emits_weaken; [| exact He]. intros ev Hev. by left.
    + destruct H as (writing & Htr & F & Hres). split.
      * repeat split; try assumption.
        exists ((Open filePath :: (Data <$> batch) ++ [End_]) ++ writing).
        split; [assumption |]. apply Forall_app. split.
        -- constructor; [by left |]. apply Forall_app. split.
           ++ apply Forall_fmap, Forall_true. intros x. by left.
           ++ constructor; [by left | constructor].
        -- eapply Forall_impl; [exact F |]. intros ev Hev. right. eauto.
      * intros _ e ->. exact Hres.
  - destruct H as (-> & _ & Htr). split.
    + repeat split; try assumption. exists [Open filePath].
      split; [assumption |]. constructor; [by left | constructor].
    + intros [x Hx]. discriminate.
Qed.

(** *** No crash and no early destroy when the input files are in place *)

Lemma inputs_exist_steady P w w' : steady P w w' -> inputs_exist w -> inputs_exist w'.
Proof.
  intros (Hf & Hd & _) [Hc Ho]. unfold inputs_exist, customers_csv, organizations_csv in *.
  rewrite Hf, Hd. by split.
Qed.

Lemma sound_at_bind {A B} w (m : M A) (f : A -> M B) :
  sound_at w m -> (forall a, sound (f a)) -> sound_at w (m ≫= f).
Proof.
  intros Hm Hf r w' Hin H.
  apply bind_inv in H as [(a & w1 & H1 & H2) | [(e & H1 & ->) | (e & H1 & ->)]].
  - destruct (Hm _ _ Hin H1) as [Hs1 _].
    destruct (Hf a w1 r w' (inputs_exist_steady _ _ _ Hs1 Hin) H2) as [Hs2 Hnc].
    split; [etransitivity; eassumption | assumption].
  - destruct (Hm _ _ Hin H1) as [Hs1 _]. split; [assumption | discriminate].
  - destruct (Hm _ _ Hin H1) as [_ Hnc]. by destruct (Hnc e).
Qed.

Lemma sound_bind {A B} (m : M A) (f : A -> M B) :
  sound m -> (forall a, sound (f a)) -> sound (m ≫= f).
Proof. intros Hm Hf w. by apply sound_at_bind. Qed.

Lemma sound_gets_bind {A B} (g : World -> A) (f : A -> M B) :
  (forall w, sound_at w (f (g w))) -> sound (gets g ≫= f).
Proof. intros Hf w r w' Hin H. rewrite bind_run in H. cbn in H. by apply Hf. Qed.

Lemma sound_ret {A} (a : A) : sound (mret a).
Proof. intros w r w' _ H. inversion H. split; [reflexivity | discriminate]. Qed.

Lemma sound_do ev : ev <> Destroy -> sound (do_ ev).
Proof.
  intros Hev w r w' _ H. inversion H. split; [by apply steady_emit | discriminate].
Qed.

Lemma sound_checkDatabaseConnection : sound checkDatabaseConnection.
Proof.
  intros w r w' _ H. apply checkDatabaseConnection_spec in H as (Hr & _ & Hs). split.
  - eapply steady_weaken; [| exact Hs]. intros ev Hev ->. exact Hev.
  - intros e ->. destruct Hr; discriminate.
Qed.

Lemma sound_count tableName : sound (count tableName).
Proof.
  intros w r w' _ H. apply count_spec in H as (_ & Hnc & Hs). split; [| assumption].
  apply Hs. discriminate.
Qed.

Lemma sound_at_processCSVStream w filePath tableName :
  is_Some (files w !! filePath) -> sound_at w (processCSVStream filePath tableName).
Proof.
  intros Hfile r w' _ H. apply processCSVStream_steady in H as [Hs Hnc]. split.
  - eapply steady_weaken; [| exact Hs]. apply ingestion_event_not_destroy.
  - by apply Hnc.
Qed.

Lemma sound_main_try : sound main_try.
Proof.
  unfold main_try.
  apply sound_bind; [apply sound_checkDatabaseConnection |].
  intros [|]; cbn [negb]; [| by apply sound_do].
  apply sound_bind; [by apply sound_do |]. intros _.
  apply sound_gets_bind. intros w.
  apply sound_at_bind.
  { intros r w' Hin. apply sound_at_processCSVStream; [apply Hin | assumption]. }
  intros _. apply sound_bind; [by apply sound_do |]. intros _.
  apply sound_gets_bind. intros w1.
  apply sound_at_bind.
  { intros r w' Hin. apply sound_at_processCSVStream; [apply Hin | assumption]. }
  intros _. apply sound_bind; [by apply sound_do |]. intros _.
  apply sound_bind; [apply sound_count |]. intros customerCount.
  apply sound_bind; [apply sound_count |]. intros orgCount.
  apply sound_bind; [by apply sound_do | intros _; by apply sound_do].
Qed.
Lemma retryOperation_answer {T} (operation : M T) maxRetries delayMs w :
  1 <= maxRetries ->
  exists wl, retryOperation operation maxRetries delayMs w = operation wl.
Proof.
  intros H. unfold retryOperation. cbn [floor Int unshift].
  destruct (retryLoop_answer operation maxRetries delayMs
              (Z.to_nat (maxRetries - 1)) 1 w ltac:(lia)) as [wl Hwl].
  replace (Z.of_nat (S (Z.to_nat (maxRetries - 1)))) with maxRetries in Hwl by lia.
  eauto.
Qed.

Lemma locked_always_busy : always_busy locked.
Proof. intros w. exists sqlite_busy, w. split; reflexivity. Qed.

Lemma duplicate_key_quiet : quiet duplicate_key.
Proof. split; intros w r w' H; inversion H; reflexivity. Qed.

(** ** Claims about the retry controller *)

(** With five attempts allowed and the database locked every time, the
    operation is called five times and the call then fails with the
    operation's own SQLITE_BUSY error, not with the
    [Operation failed after 5 attempts] error. *)
Example five_locked_attempts :
  always_busy locked
  /\ fst (retryOperation locked 5 1000 bare_world) = Err sqlite_busy
  /\ fst (retryOperation locked 5 1000 bare_world) <> Err (exhausted 5)
  /\ invocations (trace (snd (retryOperation locked 5 1000 bare_world))) = [1; 2; 3; 4; 5].
Proof.
  split; [apply locked_always_busy |].
  split; [vm_compute; reflexivity |].
  split; [vm_compute; discriminate |].
  vm_compute; reflexivity.
Qed.

(** C1: the attempts are counted as claimed, the final error is not the
    one the comment above the last line promises ("If all retries fail,
    throw a final error"). When [maxRetries] is a whole number, at least
    1, and the operation fails with the lock condition on every attempt,
    [retryOperation] calls it exactly [maxRetries] times (attempts 1, ...,
    maxRetries, once each), waits [delayMs] between consecutive attempts,
    and then fails with the SQLITE_BUSY error of the last call, unchanged:
    the error [Operation failed after <maxRetries> attempts] is not
    thrown. *)
Theorem retry_bound {T}
    (operation : M T) (maxRetries : Number_) (delayMs : Z) (w : World) :
  le_num 1 maxRetries = true ->
  is_integer maxRetries = true ->
  always_busy operation ->
  quiet operation ->
  exists e wl w',
    retryOperation operation maxRetries delayMs w = (Err e, w')
    /\ operation wl = (Err e, w')
    /\ code e = Some "SQLITE_BUSY"
    /\ e <> exhausted maxRetries
    /\ invocations (trace w') = invocations (trace w) ++ seqZ 1 (floor maxRetries)
    /\ length (invocations (trace w'))
       = (length (invocations (trace w)) + Z.to_nat (floor maxRetries))%nat
    /\ delays (trace w')
       = delays (trace w) ++ replicate (Z.to_nat (floor maxRetries - 1)) delayMs.
Proof.
  intros Hpos Hint Hbusy Hquiet. apply le_num_floor in Hpos. unfold retryOperation.
  destruct (retryLoop_busy operation maxRetries delayMs
              (Z.to_nat (floor maxRetries - 1)) 1 w Hbusy Hquiet ltac:(lia) ltac:(lia))
    as (e & w' & Hrun & Hinv & Hrest).
  rewrite Hint in Hrest. destruct Hrest as ([wl Hlast] & He & Hdel).
  replace (Z.of_nat (S (Z.to_nat (floor maxRetries - 1)))) with (floor maxRetries) in *
    by lia.
  exists e, wl, w'. repeat split; try assumption.
  - intros ->. discriminate.
  - rewrite Hinv, length_app, length_seqZ. reflexivity.
Qed.

Lemma retry_bound_witness :
  exists e wl w',
    retryOperation locked 5 1000 bare_world = (Err e, w')
    /\ locked wl = (Err e, w')
    /\ code e = Some "SQLITE_BUSY"
    /\ e <> exhausted 5
    /\ invocations (trace w') = invocations (trace bare_world) ++ seqZ 1 (floor 5)
    /\ length (invocations (trace w'))
       = (length (invocations (trace bare_world)) + Z.to_nat (floor 5))%nat
    /\ delays (trace w')
       = delays (trace bare_world) ++ replicate (Z.to_nat (floor 5 - 1)) 1000.
Proof.
  apply (retry_bound locked 5 1000 bare_world).
  - reflexivity.
  - reflexivity.
  - intros w. exists sqlite_busy, w. split; reflexivity.
  - split; intros w r w' H; inversion H; reflexivity.
Defined.

(** C4: when the first call of the operation fails with an error whose
    code is not SQLITE_BUSY, [retryOperation] fails with that very error
    and leaves the world exactly as that call left it: the operation is
    not called again and no delay is awaited. *)
Theorem non_transient_error_propagates {T}
    (operation : M T) (maxRetries delayMs : Z) (w w1 : World) (e : JsError) :
  1 <= maxRetries ->
  operation (emit (Invoke 1) w) = (Err e, w1) ->
  code e <> Some "SQLITE_BUSY" ->
  retryOperation operation maxRetries delayMs w = (Err e, w1)
  /\ (quiet operation ->
      invocations (trace w1) = invocations (trace w) ++ [1]
      /\ delays (trace w1) = delays (trace w)).
Proof.
  intros Hpos Hop Hcode. split.
  - unfold retryOperation. cbn [floor Int unshift]. rewrite seqZ_cons by lia. rewrite retryLoop_cons.
    rewrite (retryBody_rethrows _ _ _ _ _ _ _ Hop); [reflexivity |].
    unfold is_busy. rewrite bool_decide_eq_false_2 by assumption. reflexivity.
  - intros [Hqi Hqd]. split.
    + rewrite (Hqi _ _ _ Hop). apply invocations_emit_invoke.
    + rewrite (Hqd _ _ _ Hop). unfold delays. simpl.
      rewrite omap_app. simpl. apply app_nil_r.
Qed.

Lemma non_transient_error_propagates_witness :
  retryOperation duplicate_key 5 1000 bare_world
  = (Err (sqlite_constraint "customers" "Customer Id"), emit (Invoke 1) bare_world)
  /\ invocations (trace (emit (Invoke 1) bare_world)) = [1]
  /\ delays (trace (emit (Invoke 1) bare_world)) = [].
Proof.
  destruct (non_transient_error_propagates duplicate_key 5 1000 bare_world
              (emit (Invoke 1) bare_world)
              (sqlite_constraint "customers" "Customer Id")) as [Hrun Htrace].
  - lia.
  - reflexivity.
  - vm_compute. discriminate.
  - split; [exact Hrun |]. apply Htrace, duplicate_key_quiet.
Defined.




(** ** Claims about the transactional inserter *)

Lemma processCSVStream_failure_keeps_tables filePath tableName w r w' :
  processCSVStream filePath tableName w = (r, w') ->
  r <> Ok tt ->
  tables w' = tables w.
Proof.
  intros H Hr. apply processCSVStream_spec in H as (_ & _ & H).
  destruct (files w !! filePath) as [content|]; [| tauto].
  destruct (parse_csv content) as [e|batch]; [tauto |].
  destruct H as (writing & _ & _ & Hres).
  destruct r as [[]|e|e]; [congruence | assumption | contradiction].
Qed.

(** C2: inside the transaction of one attempt, as soon as the insertion of
    one record fails (after any number of records went in), the attempt
    fails with that error, the transaction is rolled back, and every table,
    the target's row count included, is as it was before the attempt. The
    whole call, retries included, leaves the tables alone whenever it does
    not succeed. *)
Theorem failed_insert_rolls_back
    (tableName : string) (w w1 w2 : World)
    (done rest : list Record_) (record : Record_) (e : JsError) :
  records w = done ++ record :: rest ->
  insertRecords tableName done (emit (Sql Begin) w) = (Ok tt, w1) ->
  insert tableName record w1 = (Err e, w2) ->
  exists w',
    insertBatch tableName w = (Err e, w')
    /\ last (trace w') = Some (Sql Rollback)
    /\ tables w' = tables w
    /\ row_count tableName w' = row_count tableName w
    /\ (forall filePath w0 r wf,
          processCSVStream filePath tableName w0 = (r, wf) -> r <> Ok tt ->
          tables wf = tables w0 /\ row_count tableName wf = row_count tableName w0).
Proof.
  intros Hrecs Hdone Hfail.
  exists (emit (Sql Rollback) (set_tables (tables w) w2)).
  split; [| split; [| split; [| split]]].
  - rewrite insertBatch_run, Hrecs.
    by rewrite (insertRecords_stops_at _ _ _ _ _ _ _ _ Hdone Hfail).
  - cbn. apply last_snoc.
  - reflexivity.
  - reflexivity.
  - intros filePath w0 r wf Hrun Hr.
    pose proof (processCSVStream_failure_keeps_tables _ _ _ _ _ Hrun Hr) as Ht.
    split; [assumption |]. unfold row_count. by rewrite Ht.
Qed.

Lemma failed_insert_rolls_back_witness :
  exists w',
    insertBatch "people" clash_world = (Err (sqlite_constraint "people" "id"), w')
    /\ last (trace w') = Some (Sql Rollback)
    /\ tables w' = tables clash_world
    /\ row_count "people" w' = row_count "people" clash_world
    /\ (forall filePath w0 r wf,
          processCSVStream filePath "people" w0 = (r, wf) -> r <> Ok tt ->
          tables wf = tables w0 /\ row_count "people" wf = row_count "people" w0).
Proof.
  eapply (failed_insert_rolls_back "people" clash_world _ _ [alice] [] bob_again).
  - reflexivity.
  - vm_compute. reflexivity.
  - vm_compute. reflexivity.
Defined.


(** Scenario C, for comparison: the lock shows on the first statement of
    the first two attempts, before anything was inserted. The third attempt
    commits the batch once, and this time the reported count is right. *)
Example two_locks_then_success :
  let out := processCSVStream "people.csv" "people"
               (people_world [Some sqlite_busy; Some sqlite_busy]) in
  fst out = Ok tt
  /\ rows <$> tables (snd out) !! "people" = Some [alice; bob; carol]
  /\ invocations (trace (snd out)) = [1; 2; 3]
  /\ delays (trace (snd out)) = [1000; 1000]
  /\ last (trace (snd out))
     = Some (ConsoleLog "Finished inserting 3 records into people").
Proof. vm_compute. repeat split; reflexivity. Qed.

(** C8: after a successful call the target table holds the rows it had
    before, followed by the records of the file in the order the parser
    produced them, whatever attempts had to be retried; so does its
    primary-key column. No other table changes. *)
Theorem batch_order_preserved
    (filePath tableName : string) (w w' : World) (t : Table) :
  processCSVStream filePath tableName w = (Ok tt, w') ->
  tables w !! tableName = Some t ->
  exists content batch t',
    files w !! filePath = Some content
    /\ parse_csv content = inr batch
    /\ tables w' !! tableName = Some t'
    /\ primaryKey t' = primaryKey t
    /\ rows t' = rows t ++ batch
    /\ key_column t' = key_column t ++ (record_get (primaryKey t) <$> batch)
    /\ (forall other, other <> tableName -> tables w' !! other = tables w !! other).
Proof.
  intros H Ht. apply processCSVStream_spec in H as (_ & _ & H).
  destruct (files w !! filePath) as [content|]; [| destruct H; discriminate].
  destruct (parse_csv content) as [e|batch] eqn:Hparse; [destruct H; discriminate |].
  destruct H as (writing & _ & _ & Hres). specialize (Hres t Ht).
  exists content, batch, (mkTable (primaryKey t) (rows t ++ batch)).
  split; [reflexivity |]. split; [exact Hparse |]. split; [| split; [| split; [| split]]].
  - rewrite Hres. apply lookup_insert_eq.
  - reflexivity.
  - reflexivity.
  - unfold key_column. cbn. by rewrite fmap_app.
  - intros other Hne. rewrite Hres. by apply lookup_insert_ne.
Qed.

Lemma batch_order_preserved_witness :
  exists content batch t',
    files (people_world []) !! "people.csv" = Some content
    /\ parse_csv content = inr batch
    /\ tables (snd (processCSVStream "people.csv" "people" (people_world [])))
         !! "people" = Some t'
    /\ primaryKey t' = "id"
    /\ rows t' = [] ++ batch
    /\ key_column t' = [] ++ (record_get "id" <$> batch)
    /\ (forall other, other <> "people" ->
          tables (snd (processCSVStream "people.csv" "people" (people_world [])))
            !! other = tables (people_world []) !! other).
Proof.
  apply (batch_order_preserved "people.csv" "people" (people_world []) _
           (mkTable "id" [])).
  - vm_compute. reflexivity.
  - vm_compute. reflexivity.
Defined.

(** C7: the trace of one call splits in two. First the stream is read;
    nothing is sent to the database meanwhile. Writing starts only once
    the parser has produced every record of the file and signalled its end;
    from then on no record is parsed any more, and every record inserted
    is one of that batch, into the target table. *)
Theorem batch_read_before_written (filePath tableName : string) (w : World) :
  let w' := snd (processCSVStream filePath tableName w) in
  exists reading writing,
    trace w' = trace w ++ reading ++ writing
    /\ Forall (reading_event filePath) reading
    /\ (forall s, Sql s ∉ reading)
    /\ (forall record, Data record ∉ writing)
    /\ (writing = []
        \/ exists content batch,
             files w !! filePath = Some content
             /\ parse_csv content = inr batch
             /\ records w' = batch
             /\ reading = Open filePath :: (Data <$> batch) ++ [End_]
             /\ Forall (writing_event tableName batch) writing).
Proof.
  destruct (processCSVStream filePath tableName w) as [r w'] eqn:H. cbn.
  assert (Hnosql : forall evs, Forall (reading_event filePath) evs ->
                     forall s, Sql s ∉ evs).
  { intros evs F s Hin. rewrite Forall_forall in F. apply (F _ Hin). }
  assert (Hnodata : forall batch evs, Forall (writing_event tableName batch) evs ->
                      forall record, Data record ∉ evs).
  { intros batch evs F record Hin. rewrite Forall_forall in F. apply (F _ Hin). }
  pose proof H as Hreads. apply processCSVStream_reads in Hreads.
  apply processCSVStream_spec in H as (_ & _ & H).
  destruct (files w !! filePath) as [content|] eqn:Hfile.
  - destruct (parse_csv content) as [e|batch] eqn:Hparse.
    + destruct H as (_ & _ & evs & Htr & F).
      exists evs, []. rewrite app_nil_r.
      repeat split; auto. intros record Hin. inversion Hin.
    + destruct H as (writing & Htr & F & _).
      destruct Hreads as (w0 & (_ & Hrec0 & _) & Hrun).
      assert (Hrec : records w' = batch).
      { apply bind_inv in Hrun as [(a & w1 & H1 & H2) | [(e & H1 & _) | (e & H1 & _)]];
          apply retry_insertBatch_spec in H1 as (Hr1 & _); [| congruence | congruence].
        rewrite bind_run in H2. cbn in H2. inversion H2; subst. cbn. congruence. }
      assert (Fr : Forall (reading_event filePath)
                     (Open filePath :: (Data <$> batch) ++ [End_])).
      { constructor; [reflexivity |]. apply Forall_app. split.
        - apply Forall_fmap. by apply Forall_true.
        - by constructor. }
      exists (Open filePath :: (Data <$> batch) ++ [End_]), writing.
      repeat split; eauto 10.
  - destruct H as (_ & _ & Htr).
    exists [Open filePath], []. repeat split; auto.
    + by constructor.
    + apply Hnosql. by constructor.
    + intros record Hin. inversion Hin.
Qed.

(** The parser on a file with CR LF line ends: the empty line gives no
    record, the quoted field keeps its comma, and the doubled quotes
    inside it stand for one quote each. *)
Example windows_file :
  csv.parse windows_csv
  = ([ [("id", "1"); ("name", "Liddell, " +:+ dq +:+ "Alice" +:+ dq)];
       [("id", "2"); ("name", "Bob")] ],
     None).
Proof. vm_compute. reflexivity. Qed.



(** ** Claims about the orchestrator *)

Lemma probe_event_not_organizations w ev :
  probe_event ev -> ~ organizations_event w ev.
Proof. destruct ev as [| | | | | | | |[]|]; cbn; try tauto. intros -> H. discriminate. Qed.

Lemma customers_ingestion_not_organizations w ev :
  ingestion_event (customers_csv w) "customers" ev -> ~ organizations_event w ev.
Proof.
  intros [Hr | [batch Hw]] Ho; destruct ev as [| line | | | p | | | |[]|];
    cbn in *; try contradiction.
  - subst p. unfold customers_csv, organizations_csv, path_resolve in Ho.
    apply (inj (String.app (dirname w))) in Ho. discriminate.
  - subst line. destruct Hw as [[n Hn] | [[n Hn] | [a Ha]]]; discriminate.
  - destruct Hw as [-> _]. discriminate.
Qed.

(** C5: when the probe has succeeded and the ingestion of the first pair
    (customers) does not succeed, [main] goes straight to the error log and
    the cleanup: the organizations file is never opened, nothing is
    inserted into or counted in [organizations], its start is never
    announced, and every table, the customers table included, has the rows
    it had when the run started. *)
Theorem later_files_never_attempted (w wc w1 : World) (r1 : Outcome unit) :
  checkDatabaseConnection w = (Ok true, wc) ->
  processCSVStream (customers_csv w) "customers"
    (emit (ConsoleLog "Starting to insert customers") wc) = (r1, w1) ->
  r1 <> Ok tt ->
  snd (main w)
    = match r1 with
      | Err e => closing (emit (ConsoleError "Error:" (Some e)) w1)
      | _ => w1
      end
  /\ tables (snd (main w)) = tables w
  /\ (forall t, row_count t (snd (main w)) = row_count t w)
  /\ exists evs,
       trace (snd (main w)) = trace w ++ evs
       /\ Forall (fun ev => ~ organizations_event w ev) evs.
Proof.
  intros Hcheck Hrun Hfail.
  pose proof (checkDatabaseConnection_spec _ _ _ Hcheck) as (_ & Htc & Hfc & Hdc & Hec).
  pose proof (processCSVStream_failure_keeps_tables _ _ _ _ _ Hrun Hfail) as Ht1.
  cbn in Ht1.
  pose proof (processCSVStream_steady _ _ _ _ _ Hrun) as [(_ & _ & He1) _].
  assert (Htry : main_try w = (r1, w1) /\ r1 <> Ok tt).
  { split; [| assumption]. unfold main_try.
    rewrite (bind_ok _ _ _ _ _ Hcheck). cbn [negb].
    rewrite (bind_ok _ _ wc tt (emit (ConsoleLog "Starting to insert customers") wc))
      by reflexivity.
    rewrite bind_run. cbn [gets].
    replace (customers_csv (emit (ConsoleLog "Starting to insert customers") wc))
      with (customers_csv w) by (unfold customers_csv; cbn; by rewrite Hdc).
    destruct r1 as [[]|e|e]; [congruence | |].
    - by rewrite (bind_err _ _ _ _ _ Hrun).
    - by rewrite (bind_crash _ _ _ _ _ Hrun). }
  destruct Htry as [Htry _].
  assert (Hbefore : emits (fun ev => ~ organizations_event w ev) w w1).
  { etransitivity; [eapply emits_weaken; [| exact Hec];
                    apply probe_event_not_organizations |].
    etransitivity;
      [apply (emits_emit _ (ConsoleLog "Starting to insert customers") wc);
       cbn; discriminate |].
    eapply emits_weaken; [| exact He1]. apply customers_ingestion_not_organizations. }
  assert (Hfinal : snd (main w)
    = match r1 with
      | Err e => closing (emit (ConsoleError "Error:" (Some e)) w1)
      | _ => w1
      end).
  { rewrite main_run, Htry. destruct r1 as [[]|e|e]; [congruence | reflexivity..]. }
  assert (Htab : tables (snd (main w)) = tables w).
  { rewrite Hfinal. destruct r1 as [[]|e|e]; cbn; congruence. }
  split; [exact Hfinal |]. split; [exact Htab |].
  split; [intros t; unfold row_count; by rewrite Htab |].
  rewrite Hfinal. destruct Hbefore as (evs & Htr & F).
  destruct r1 as [[]|e|e]; [congruence | | eauto].
  exists (evs ++ [ConsoleError "Error:" (Some e); Destroy;
                  ConsoleLog "Database connection closed"]).
  split.
  - cbn. rewrite Htr. list_norm. reflexivity.
  - apply Forall_app. split; [assumption |].
    repeat constructor; cbn; try tauto. discriminate.
Qed.

Lemma later_files_never_attempted_witness :
  snd (main scenario_B)
    = closing (emit (ConsoleError "Error:"
                       (Some (sqlite_constraint "customers" "Customer Id")))
                    (snd (processCSVStream (customers_csv scenario_B) "customers"
                            (emit (ConsoleLog "Starting to insert customers")
                                  (snd (checkDatabaseConnection scenario_B))))))
  /\ tables (snd (main scenario_B)) = tables scenario_B
  /\ (forall t, row_count t (snd (main scenario_B)) = row_count t scenario_B)
  /\ exists evs,
       trace (snd (main scenario_B)) = trace scenario_B ++ evs
       /\ Forall (fun ev => ~ organizations_event scenario_B ev) evs.
Proof.
  eapply (later_files_never_attempted scenario_B _ _
            (Err (sqlite_constraint "customers" "Customer Id"))).
  - vm_compute. reflexivity.
  - vm_compute. reflexivity.
  - discriminate.
Defined.

Lemma destroys_app tr1 tr2 : destroys (tr1 ++ tr2) = (destroys tr1 + destroys tr2)%nat.
Proof. unfold destroys. by rewrite omap_app, length_app. Qed.

Lemma destroys_none evs : Destroy ∉ evs -> destroys evs = 0%nat.
Proof.
  induction evs as [|ev evs IH]; intros Hno; [reflexivity |].
  assert (Hev : ev <> Destroy) by (intros ->; apply Hno; left).
  assert (Hevs : Destroy ∉ evs) by (intros Hin; apply Hno; by right).
  change (destroys (ev :: evs)) with (destroys ([ev] ++ evs)).
  rewrite destroys_app, (IH Hevs). by destruct ev.
Qed.

(** With both input files in place, whatever the engine does (the
    probe fails, an ingestion or a count fails, or all goes well), [main]
    completes without throwing and the last things it does are
    [db.destroy()] and the closing log line; the connection is not
    destroyed anywhere before that, so it is destroyed exactly once. *)
Theorem connection_destroyed_exactly_once (w : World) :
  inputs_exist w ->
  exists evs,
    fst (main w) = Ok tt
    /\ trace (snd (main w))
       = trace w ++ evs ++ [Destroy; ConsoleLog "Database connection closed"]
    /\ (Destroy ∉ evs)
    /\ destroys (trace (snd (main w))) = (destroys (trace w) + 1)%nat.
Proof.
  intros Hin.
  assert (H : exists evs,
    fst (main w) = Ok tt
    /\ trace (snd (main w))
       = trace w ++ evs ++ [Destroy; ConsoleLog "Database connection closed"]
    /\ Destroy ∉ evs).
  { rewrite main_run.
    destruct (main_try w) as [r w1] eqn:Htry.
    destruct (sound_main_try w r w1 Hin Htry) as [(_ & _ & evs & Htr & F) Hnc].
    assert (Hno : Destroy ∉ evs).
    { intros Hd. rewrite Forall_forall in F. by apply (F _ Hd). }
    destruct r as [[]|e|e]; [| | by destruct (Hnc e)].
    - exists evs. cbn. rewrite Htr. list_norm. repeat split; try reflexivity; assumption.
    - exists (evs ++ [ConsoleError "Error:" (Some e)]). cbn. rewrite Htr. list_norm.
      repeat split; try reflexivity.
      intros [Hd | Hd]%elem_of_app; [by apply Hno |].
      apply list_elem_of_singleton in Hd. discriminate. }
  destruct H as (evs & Hok & Htr & Hno). exists evs.
  repeat split; try assumption.
  rewrite Htr, !destroys_app, (destroys_none _ Hno). reflexivity.
Qed.

Lemma connection_destroyed_exactly_once_witness :
  exists evs,
    fst (main scenario_D) = Ok tt
    /\ trace (snd (main scenario_D))
       = trace scenario_D ++ evs ++ [Destroy; ConsoleLog "Database connection closed"]
    /\ (Destroy ∉ evs)
    /\ destroys (trace (snd (main scenario_D))) = (destroys (trace scenario_D) + 1)%nat.
Proof.
  apply (connection_destroyed_exactly_once scenario_D).
  split; eexists; vm_compute; reflexivity.
Defined.

(** The three ways a run can end, on concrete worlds. *)

Example run_without_failure :
  trace (snd (main scenario_ok))
  = [ Sql SelectOne; ConsoleLog "Database connected successfully";
      ConsoleLog "Starting to insert customers";
      Open "/app/src/../tmp/extracted/dump/customers.csv";
      Data [("Customer Id", "c1"); ("First Name", "Ann")];
      Data [("Customer Id", "c2"); ("First Name", "Ben")];
      End_; Invoke 1; Sql Begin;
      Sql (Insert "customers" [("Customer Id", "c1"); ("First Name", "Ann")]);
      Sql (Insert "customers" [("Customer Id", "c2"); ("First Name", "Ben")]);
      Sql Commit; ConsoleLog "Finished inserting 2 records into customers";
      ConsoleLog "Starting to insert organizations";
      Open "/app/src/../tmp/extracted/dump/organizations.csv";
      Data [("Organization Id", "o1"); ("Name", "Acme")];
      End_; Invoke 1; Sql Begin;
      Sql (Insert "organizations" [("Organization Id", "o1"); ("Name", "Acme")]);
      Sql Commit; ConsoleLog "Finished inserting 1 records into organizations";
      ConsoleLog "All data insertion completed";
      Sql (CountRows "customers"); Sql (CountRows "organizations");
      ConsoleLog "Customers in database: 2";
      ConsoleLog "Organizations in database: 1";
      Destroy; ConsoleLog "Database connection closed" ].
Proof. vm_compute. reflexivity. Qed.

Example run_with_failed_probe :
  main scenario_D
  = (Ok tt,
     closing (emit (ConsoleError "Exiting due to database connection failure" None)
               (emit (ConsoleError "Database connection failed:" (Some cannot_open))
                  (set_faults [] (emit (Sql SelectOne) scenario_D))))).
Proof. vm_compute. reflexivity. Qed.

Example run_with_duplicate_key :
  trace (snd (main scenario_B))
  = [ Sql SelectOne; ConsoleLog "Database connected successfully";
      ConsoleLog "Starting to insert customers";
      Open "/app/src/../tmp/extracted/dump/customers.csv";
      Data [("Customer Id", "c1"); ("First Name", "Ann")];
      Data [("Customer Id", "c1"); ("First Name", "Ben")];
      End_; Invoke 1; Sql Begin;
      Sql (Insert "customers" [("Customer Id", "c1"); ("First Name", "Ann")]);
      Sql (Insert "customers" [("Customer Id", "c1"); ("First Name", "Ben")]);
      Sql Rollback;
      ConsoleError "Error:" (Some (sqlite_constraint "customers" "Customer Id"));
      Destroy; ConsoleLog "Database connection closed" ]
  /\ row_count "customers" (snd (main scenario_B)) = Some 0%nat
  /\ row_count "organizations" (snd (main scenario_B)) = Some 0%nat.
Proof. vm_compute. repeat split; reflexivity. Qed.

(** C6: the cleanup is skipped on one error path, against the comment on
    the [finally] block ("Ensure database connection is closed, even if
    an error occurred"). When the probe succeeds and the customers file
    cannot be opened, the ['error'] event of the read stream reaches no
    listener: the run ends there with the ENOENT error, the last thing
    that happened is the attempt to open the file, and the connection was
    not destroyed. *)
Theorem missing_input_skips_cleanup (w : World) :
  fst (checkDatabaseConnection w) = Ok true ->
  files w !! customers_csv w = None ->
  fst (main w) = Crash (enoent (customers_csv w))
  /\ destroys (trace (snd (main w))) = destroys (trace w)
  /\ last (trace (snd (main w))) = Some (Open (customers_csv w)).
Proof.
  intros Hprobe Hfile.
  destruct (checkDatabaseConnection w) as [r wc] eqn:Hcheck. cbn in Hprobe. subst r.
  pose proof Hcheck as Hrun. rewrite checkDatabaseConnection_run in Hrun.
  assert (Hwc : wc = emit (ConsoleLog "Database connected successfully")
                       (set_faults (tail (faults w)) (emit (Sql SelectOne) w))).
  { destruct (head (faults w)) as [[e|]|]; inversion Hrun; reflexivity. }
  set (w1 := emit (ConsoleLog "Starting to insert customers") wc).
  assert (Hmiss : processCSVStream (customers_csv w) "customers" w1
                  = (Crash (enoent (customers_csv w)),
                     emit (Open (customers_csv w))
                       (set_totalInserted 0 (set_records [] w1)))).
  { apply processCSVStream_missing. unfold w1. rewrite Hwc. exact Hfile. }
  assert (Htry : main_try w = (Crash (enoent (customers_csv w)),
                     emit (Open (customers_csv w))
                       (set_totalInserted 0 (set_records [] w1)))).
  { unfold main_try. rewrite (bind_ok _ _ _ _ _ Hcheck). cbn [negb].
    rewrite (bind_ok _ _ wc tt w1) by reflexivity.
    rewrite bind_run. cbn [gets].
    replace (customers_csv w1) with (customers_csv w)
      by (unfold customers_csv, w1; rewrite Hwc; reflexivity).
    by rewrite (bind_crash _ _ _ _ _ Hmiss). }
  rewrite main_run, Htry. cbn [fst snd].
  split; [reflexivity |]. split.
  - unfold w1. rewrite Hwc. unfold destroys. cbn. rewrite !omap_app. cbn.
    by rewrite !app_nil_r.
  - cbn. by rewrite last_snoc.
Qed.

Lemma missing_input_skips_cleanup_witness :
  fst (main bare_world) = Crash (enoent (customers_csv bare_world))
  /\ destroys (trace (snd (main bare_world))) = destroys (trace bare_world)
  /\ last (trace (snd (main bare_world))) = Some (Open (customers_csv bare_world)).
Proof.
  apply (missing_input_skips_cleanup bare_world).
  - vm_compute. reflexivity.
  - vm_compute. reflexivity.
Defined.

(** The precondition on the input files cannot be dropped: the ['error']
    event of a read stream that cannot open its file reaches no listener,
    and the process ends before the [finally] block. *)
Example run_without_input_file :
  fst (main bare_world)
  = Crash (enoent "/app/src/../tmp/extracted/dump/customers.csv")
  /\ Destroy ∉ trace (snd (main bare_world)).
Proof.
  split; [vm_compute; reflexivity |].
  intros H. vm_compute in H. repeat (apply elem_of_cons in H as [H | H]; [discriminate |]).
  inversion H.
Qed.

(** * Further properties *)

(** ** The retry controller *)

Lemma delays_emit_other ev w :
  match ev with Timer _ => False | _ => True end ->
  delays (trace (emit ev w)) = delays (trace w).
Proof.
  intros H. unfold delays. cbn. rewrite omap_app. destruct ev; try contradiction;
    cbn; apply app_nil_r.
Qed.

Lemma invocations_emit_other ev w :
  match ev with Invoke _ => False | _ => True end ->
  invocations (trace (emit ev w)) = invocations (trace w).
Proof.
  intros H. unfold invocations. cbn. rewrite omap_app. destruct ev; try contradiction;
    cbn; apply app_nil_r.
Qed.

Lemma delays_emit_timer ms w :
  delays (trace (emit (Timer ms) w)) = delays (trace w) ++ [ms].
Proof. unfold delays. cbn. by rewrite omap_app. Qed.

Section RetryBound.
Context {T : Type} (operation : M T) (maxRetries delayMs : Z).
Hypothesis Hquiet : quiet operation.

Lemma retryBody_none attempt w w' :
  retryBody operation maxRetries delayMs attempt w = (Ok None, w') ->
  attempt < maxRetries.
Proof.
  destruct (operation (emit (Invoke attempt) w)) as [[v|e|e] w1] eqn:Hop.
  - rewrite (retryBody_returns _ _ _ _ _ _ _ Hop). discriminate.
  - destruct (is_busy e && bool_decide (attempt < maxRetries)) eqn:Hc.
    + intros _. apply andb_true_iff in Hc as [_ Hlt]. by apply bool_decide_eq_true_1 in Hlt.
    + rewrite (retryBody_rethrows _ _ _ _ _ _ _ Hop Hc). discriminate.
  - rewrite (retryBody_crashes _ _ _ _ _ _ _ Hop). discriminate.
Qed.

Lemma retryLoop_bounded (n : nat) : forall a w,
  a + Z.of_nat n = maxRetries ->
  let out := retryLoop operation maxRetries delayMs (seqZ a (Z.of_nat (S n))) w in
  exists k : nat,
    (1 <= k <= S n)%nat
    /\ invocations (trace (snd out)) = invocations (trace w) ++ seqZ a (Z.of_nat k)
    /\ delays (trace (snd out)) = delays (trace w) ++ replicate (k - 1) delayMs.
Proof.
  destruct Hquiet as [Hqi Hqd].
  induction n as [|n IH]; intros a w Ha; cbn zeta;
    rewrite seqZ_from, retryLoop_cons;
    destruct (retryBody operation maxRetries delayMs a w) as [rb wb] eqn:Hb;
    pose proof Hb as Hb';
    apply retryBody_outcome in Hb
      as [(v & Ho & ->) | [(e & Ho & ->) | [(e & Ho & ->) | (e & w1 & Ho & -> & ->)]]];
    pose proof (Hqi _ _ _ Ho) as Hi; pose proof (Hqd _ _ _ Ho) as Hd;
    unfold same in Hi, Hd; rewrite invocations_emit_invoke in Hi;
    rewrite delays_emit_other in Hd by exact I.
  1-3, 5-7: (exists 1%nat; cbn [snd]; split; [lia |]; split;
             [by rewrite Hi | by rewrite Hd, app_nil_r]).
  - (* the last attempt allowed is never followed by a delay *)
    apply retryBody_none in Hb'. lia.
  - set (w2 := emit (Timer delayMs)
                 (emit (ConsoleLog (retry_notice delayMs a maxRetries)) w1)).
    destruct (IH (a + 1) w2 ltac:(lia)) as (k & Hk & Hinv & Hdel). cbn zeta in *.
    exists (S k). split; [lia |]. split.
    + rewrite Hinv. unfold w2.
      rewrite invocations_emit_other, invocations_emit_other, Hi by exact I.
      rewrite <- app_assoc. cbn [app]. by rewrite <- seqZ_from.
    + rewrite Hdel. unfold w2.
      rewrite delays_emit_timer, delays_emit_other, Hd by exact I.
      rewrite <- app_assoc. cbn [app].
      replace (S k - 1)%nat with (S (k - 1)) by lia. reflexivity.
Qed.
End RetryBound.

(** X1: whatever a quiet operation does, [retryOperation] calls it at most
    [maxRetries] times, with attempt numbers 1, 2, ... in order, at least
    once when an attempt is allowed, and awaits one delay between two
    consecutive calls, always of [delayMs]: the delay never grows. *)
Theorem retry_attempts_bounded {T}
    (operation : M T) (maxRetries delayMs : Z) (w : World) :
  quiet operation ->
  let out := retryOperation operation maxRetries delayMs w in
  exists k : nat,
    (k <= Z.to_nat maxRetries)%nat
    /\ (1 <= maxRetries -> (1 <= k)%nat)
    /\ invocations (trace (snd out)) = invocations (trace w) ++ seqZ 1 (Z.of_nat k)
    /\ delays (trace (snd out)) = delays (trace w) ++ replicate (k - 1) delayMs.
Proof.
  intros Hquiet. cbn zeta. unfold retryOperation. cbn [floor Int unshift].
  destruct (Z_le_gt_dec maxRetries 0) as [Hle | Hgt].
  - rewrite seqZ_nil by assumption. cbn. exists 0%nat.
    split; [lia |]. split; [lia |]. by rewrite !app_nil_r.
  - destruct (retryLoop_bounded operation maxRetries delayMs Hquiet
                (Z.to_nat (maxRetries - 1)) 1 w ltac:(lia)) as (k & Hk & Hinv & Hdel).
    cbn zeta in *.
    replace (Z.of_nat (S (Z.to_nat (maxRetries - 1)))) with maxRetries in * by lia.
    exists k. split; [lia |]. split; [lia |]. split; assumption.
Qed.

Lemma retry_attempts_bounded_witness :
  let out := retryOperation locked 3 250 bare_world in
  exists k : nat,
    (k <= Z.to_nat 3)%nat
    /\ (1 <= 3 -> (1 <= k)%nat)
    /\ invocations (trace (snd out)) = invocations (trace bare_world) ++ seqZ 1 (Z.of_nat k)
    /\ delays (trace (snd out)) = delays (trace bare_world) ++ replicate (k - 1) 250.
Proof.
  apply (retry_attempts_bounded locked 3 250 bare_world).
  split; intros w r w' H; inversion H; reflexivity.
Defined.

(** X2: with an attempt allowed, when the first call of the operation
    succeeds, or fails with anything but the lock condition, its answer is
    the answer of [retryOperation] and nothing happens after it: a success
    is returned at once. *)
Theorem first_answer_is_final {T}
    (operation : M T) (maxRetries delayMs : Z) (w : World) :
  1 <= maxRetries ->
  (forall e, fst (operation (emit (Invoke 1) w)) = Err e -> code e <> Some "SQLITE_BUSY") ->
  retryOperation operation maxRetries delayMs w = operation (emit (Invoke 1) w).
Proof.
  intros Hpos Hcode. unfold retryOperation. cbn [floor Int unshift].
  rewrite seqZ_cons by lia. rewrite retryLoop_cons.
  destruct (operation (emit (Invoke 1) w)) as [[v|e|e] w1] eqn:Hop.
  - by rewrite (retryBody_returns _ _ _ _ _ _ _ Hop).
  - rewrite (retryBody_rethrows _ _ _ _ _ _ _ Hop); [reflexivity |].
    unfold is_busy. rewrite bool_decide_eq_false_2; [reflexivity |]. by apply Hcode.
  - by rewrite (retryBody_crashes _ _ _ _ _ _ _ Hop).
Qed.

Lemma first_answer_is_final_witness :
  retryOperation ready 5 1000 bare_world = ready (emit (Invoke 1) bare_world).
Proof.
  apply (first_answer_is_final ready 5 1000 bare_world).
  - lia.
  - intros e H. discriminate.
Defined.

Section RetrySteps.
Context {T : Type} (operation : M T) (maxRetries delayMs : Z).

Lemma retryLoop_first_call attempt rest w :
  (forall e, fst (operation (emit (Invoke attempt) w)) = Err e ->
     is_busy e && bool_decide (attempt < maxRetries) = false) ->
  retryLoop operation maxRetries delayMs (attempt :: rest) w
  = operation (emit (Invoke attempt) w).
Proof.
  intros Hcode. rewrite retryLoop_cons.
  destruct (operation (emit (Invoke attempt) w)) as [[v|e|e] w1] eqn:Hop.
  - by rewrite (retryBody_returns _ _ _ _ _ _ _ Hop).
  - by rewrite (retryBody_rethrows _ _ _ _ _ _ _ Hop (Hcode e eq_refl)).
  - by rewrite (retryBody_crashes _ _ _ _ _ _ _ Hop).
Qed.

Lemma retryLoop_next_call attempt rest w e w1 :
  operation (emit (Invoke attempt) w) = (Err e, w1) ->
  is_busy e = true -> attempt < maxRetries ->
  retryLoop operation maxRetries delayMs (attempt :: rest) w
  = retryLoop operation maxRetries delayMs rest
      (emit (Timer delayMs)
         (emit (ConsoleLog (retry_notice delayMs attempt maxRetries)) w1)).
Proof.
  intros Hop Hb Hlt. rewrite retryLoop_cons.
  by rewrite (retryBody_retries _ _ _ _ _ _ _ Hop Hb Hlt).
Qed.
End RetrySteps.

(** ** One attempt at a batch *)

Lemma insert_refused tableName record w e fs :
  faults w = Some e :: fs ->
  insert tableName record w
  = (Err e, set_faults fs (emit (Sql (Insert tableName record)) w)).
Proof.
  intros Hf. unfold insert, submit, next_fault, mbind, M_bind, do_, throw. cbn.
  by rewrite Hf.
Qed.

Lemma insert_accepted tableName record w t :
  faults w = [] ->
  tables w !! tableName = Some t ->
  insert tableName record w
  = match insert_row tableName t record with
    | inl e => (Err e, emit (Sql (Insert tableName record)) w)
    | inr t' => (Ok tt, set_tables (<[tableName := t']> (tables w))
                          (emit (Sql (Insert tableName record)) w))
    end.
Proof.
  intros Hf Ht.
  unfold insert, submit, next_fault, mbind, M_bind, do_, throw, gets, modify, mret, M_ret.
  cbn. rewrite Hf. cbn. rewrite Ht. unfold insert_row. by destruct (pk_taken t record).
Qed.

(** The loop over the records sends statements and writes progress lines;
    it makes no call through the controller and awaits no delay. *)
Lemma insertRecords_fields tableName : forall rs w r w',
  insertRecords tableName rs w = (r, w') ->
  invocations (trace w') = invocations (trace w)
  /\ delays (trace w') = delays (trace w)
  /\ (length (faults w') <= length (faults w))%nat
  /\ totalInserted w <= totalInserted w'.
Proof.
  induction rs as [|record rest IH]; intros w r w' H.
  - inversion H; subst. repeat split; lia.
  - cbn [insertRecords] in H.
    apply bind_inv in H as [(a & w1 & H1 & H2) | [(e & H1 & ->) | (e & H1 & ->)]];
      apply insert_spec in H1 as (Htr & _ & Htot & _ & _ & Hfa & _).
    + rewrite !bind_run in H2. cbn in H2.
      rewrite bind_run in H2. cbn in H2. rewrite bind_run in H2.
      assert (Hi1 : invocations (trace w1) = invocations (trace w))
        by (rewrite Htr; unfold invocations; rewrite omap_app; apply app_nil_r).
      assert (Hd1 : delays (trace w1) = delays (trace w))
        by (rewrite Htr; unfold delays; rewrite omap_app; apply app_nil_r).
      assert (Hl1 : (length (faults w1) <= length (faults w))%nat)
        by (rewrite Hfa; destruct (faults w); cbn; lia).
      match type of H2 with context [if ?c then _ else _] => destruct c end;
        cbn in H2; apply IH in H2 as (Hi & Hd & Hl & Ht); cbn in *;
        repeat split; try lia;
        try (rewrite Hi; unfold invocations; rewrite ?omap_app; cbn;
             rewrite ?app_nil_r; exact Hi1);
        try (rewrite Hd; unfold delays; rewrite ?omap_app; cbn;
             rewrite ?app_nil_r; exact Hd1).
    + repeat split; try lia.
      * rewrite Htr. unfold invocations. rewrite omap_app. apply app_nil_r.
      * rewrite Htr. unfold delays. rewrite omap_app. apply app_nil_r.
      * rewrite Hfa. destruct (faults w); cbn; lia.
    + repeat split; try lia.
      * rewrite Htr. unfold invocations. rewrite omap_app. apply app_nil_r.
      * rewrite Htr. unfold delays. rewrite omap_app. apply app_nil_r.
      * rewrite Hfa. destruct (faults w); cbn; lia.
Qed.

Lemma insertBatch_quiet tableName : quiet (insertBatch tableName).
Proof.
  split; intros w r w'; rewrite insertBatch_run;
    destruct (insertRecords tableName (records w) (emit (Sql Begin) w)) as [rh wh] eqn:Hh;
    apply insertRecords_fields in Hh as (Hi & Hd & _);
    destruct rh as [[]|e|e]; intros H; inversion H; subst; unfold same;
    unfold invocations, delays in *; cbn in *; rewrite ?omap_app in *; cbn in *;
    rewrite ?app_nil_r in *; congruence.
Qed.

(** With no fault scheduled, the loop over the records is the pure fold. *)
Lemma insertRecords_accepted tableName : forall rs w t,
  faults w = [] ->
  tables w !! tableName = Some t ->
  exists w',
    insertRecords tableName rs w
    = (match insert_rows tableName t rs with inl e => Err e | inr _ => Ok tt end, w')
    /\ faults w' = []
    /\ match insert_rows tableName t rs with
       | inr t' =>
           tables w' = <[tableName := t']> (tables w)
           /\ totalInserted w' = totalInserted w + Z.of_nat (length rs)
       | inl _ => True
       end.
Proof.
  induction rs as [|record rest IH]; intros w t Hf Ht.
  - exists w. cbn. repeat split; try assumption; try lia.
    symmetry. by apply insert_id.
  - cbn [insertRecords insert_rows].
    pose proof (insert_accepted tableName record w t Hf Ht) as Hins.
    destruct (insert_row tableName t record) as [e|t1] eqn:Hrow.
    + eexists. rewrite (bind_err _ _ _ _ _ Hins). repeat split. exact Hf.
    + rewrite (bind_ok _ _ _ _ _ Hins).
      rewrite !bind_run. cbn. rewrite bind_run. cbn. rewrite bind_run.
      match goal with |- context [if ?c then _ else _] => destruct c end; cbn;
        match goal with |- context [insertRecords tableName rest ?w3] =>
          destruct (IH w3 t1 Hf (lookup_insert_eq _ _ _)) as (w' & Hrun & Hf' & Hres)
        end;
        exists w'; (split; [exact Hrun |]); (split; [exact Hf' |]);
        destruct (insert_rows tableName t1 rest) as [e|t2]; try exact I;
        destruct Hres as [Htab Htot]; cbn in Htab, Htot;
        (split; [by rewrite Htab, insert_insert_eq | cbn [length]; lia]).
Qed.

Lemma insert_rows_app tableName : forall xs ys t,
  insert_rows tableName t (xs ++ ys)
  = match insert_rows tableName t xs with
    | inl e => inl e
    | inr t' => insert_rows tableName t' ys
    end.
Proof.
  induction xs as [|x xs IH]; intros ys t; [reflexivity |].
  cbn. destruct (insert_row tableName t x); [reflexivity | apply IH].
Qed.

Lemma insert_rows_shape tableName : forall rs t,
  match insert_rows tableName t rs with
  | inl e => e = sqlite_constraint tableName (primaryKey t)
  | inr t' => t' = mkTable (primaryKey t) (rows t ++ rs)
  end.
Proof.
  induction rs as [|record rest IH]; intros t; cbn.
  - rewrite app_nil_r. by destruct t.
  - unfold insert_row. destruct (pk_taken t record); [reflexivity |].
    specialize (IH (mkTable (primaryKey t) (rows t ++ [record]))). cbn in IH.
    destruct (insert_rows _ _ rest); [assumption |]. by rewrite <- app_assoc in IH.
Qed.

Lemma pk_taken_false pk existing record :
  record_get pk record ∉ (record_get pk <$> existing) ->
  pk_taken (mkTable pk existing) record = false.
Proof.
  intros Hnot. unfold pk_taken. cbn.
  destruct (record_get pk record) as [v|] eqn:Hv; [| reflexivity].
  apply not_true_is_false. intros Hex. apply existsb_exists in Hex as (r & Hin & Hr).
  apply bool_decide_eq_true_1 in Hr. apply Hnot. rewrite <- Hr.
  apply list_elem_of_fmap. exists r. split; [reflexivity | by apply list_elem_of_In].
Qed.

(** Keys that are pairwise different, and different from those in the
    table, all go in. *)
Lemma insert_rows_fresh tableName pk : forall rs existing,
  NoDup (record_get pk <$> (existing ++ rs)) ->
  insert_rows tableName (mkTable pk existing) rs = inr (mkTable pk (existing ++ rs)).
Proof.
  induction rs as [|record rest IH]; intros existing Hnd; cbn.
  - by rewrite app_nil_r.
  - unfold insert_row. cbn [primaryKey rows].
    rewrite fmap_app, fmap_cons in Hnd.
    pose proof Hnd as Hnd'. apply NoDup_app in Hnd' as (_ & Hdisj & Htail).
    rewrite pk_taken_false.
    + rewrite IH; [by rewrite <- app_assoc |].
      rewrite <- app_assoc. cbn. by rewrite fmap_app, fmap_cons.
    + intros Hin. apply (Hdisj _ Hin). left.
Qed.

Lemma pk_taken_grows pk existing more record :
  pk_taken (mkTable pk existing) record = true ->
  pk_taken (mkTable pk (existing ++ more)) record = true.
Proof.
  unfold pk_taken. cbn. destruct (record_get pk record); [| discriminate].
  rewrite existsb_app. intros ->. reflexivity.
Qed.

(** A key that is taken when the load starts, or that an earlier record
    of the batch takes, stops the fold. *)
Lemma insert_rows_taken tableName pk : forall pre existing record post,
  pk_taken (mkTable pk (existing ++ pre)) record = true ->
  insert_rows tableName (mkTable pk existing) (pre ++ record :: post)
  = inl (sqlite_constraint tableName pk).
Proof.
  intros pre existing record post Htaken.
  rewrite insert_rows_app.
  pose proof (insert_rows_shape tableName pre (mkTable pk existing)) as Hshape.
  destruct (insert_rows tableName (mkTable pk existing) pre) as [e|t'];
    cbn in Hshape; subst; [reflexivity |].
  cbn. unfold insert_row. cbn [primaryKey]. by rewrite Htaken.
Qed.

Lemma insertBatch_accepted tableName w t :
  faults w = [] ->
  tables w !! tableName = Some t ->
  exists w',
    insertBatch tableName w
    = (match insert_rows tableName t (records w) with
       | inl e => Err e
       | inr _ => Ok tt
       end, w')
    /\ faults w' = [].
Proof.
  intros Hf Ht. rewrite insertBatch_run.
  destruct (insertRecords_accepted tableName (records w) (emit (Sql Begin) w) t Hf Ht)
    as (wh & Hrun & Hf' & _).
  rewrite Hrun. destruct (insert_rows tableName t (records w)); eexists; split;
    try reflexivity; exact Hf'.
Qed.

Lemma insertBatch_refused tableName w e fs record rest :
  faults w = Some e :: fs ->
  records w = record :: rest ->
  exists w',
    insertBatch tableName w = (Err e, w')
    /\ faults w' = fs /\ totalInserted w' = totalInserted w.
Proof.
  intros Hf Hr. rewrite insertBatch_run, Hr. cbn [insertRecords].
  rewrite (bind_err _ _ _ _ _
             (insert_refused tableName record (emit (Sql Begin) w) e fs Hf)).
  eexists. repeat split.
Qed.

(** Attempts that find the database locked on their first statement
    change nothing but the trace and the schedule of faults. *)
Lemma locked_attempts tableName record rest : forall (j : nat) a others w fs,
  records w = record :: rest ->
  faults w = replicate j (Some sqlite_busy) ++ fs ->
  a + Z.of_nat j <= 5 ->
  exists wj,
    retryLoop (insertBatch tableName) 5 1000 (seqZ a (Z.of_nat j) ++ others) w
    = retryLoop (insertBatch tableName) 5 1000 others wj
    /\ faults wj = fs /\ tables wj = tables w /\ records wj = records w
    /\ totalInserted wj = totalInserted w
    /\ files wj = files w /\ dirname wj = dirname w
    /\ invocations (trace wj) = invocations (trace w) ++ seqZ a (Z.of_nat j)
    /\ delays (trace wj) = delays (trace w) ++ replicate j 1000.
Proof.
  induction j as [|j IH]; intros a others w fs Hrec Hf Ha.
  - exists w. cbn. rewrite !app_nil_r. repeat split; assumption.
  - rewrite seqZ_from. cbn [app].
    destruct (insertBatch_refused tableName (emit (Invoke a) w) sqlite_busy
                (replicate j (Some sqlite_busy) ++ fs) record rest Hf Hrec)
      as (w1 & Hop & Hf1 & Htot1).
    pose proof (insertBatch_spec _ _ _ _ Hop) as (Hrec1 & Hfil1 & Hdir1 & _ & Htab1).
    destruct (insertBatch_quiet tableName) as [Hqi Hqd].
    pose proof (Hqi _ _ _ Hop) as Hi1. pose proof (Hqd _ _ _ Hop) as Hd1.
    unfold same in Hi1, Hd1. rewrite invocations_emit_invoke in Hi1.
    rewrite delays_emit_other in Hd1 by exact I. cbn in Hrec1, Hfil1, Hdir1, Htab1, Htot1.
    rewrite (retryLoop_next_call _ _ _ _ _ _ _ _ Hop) by (reflexivity || lia).
    set (w2 := emit (Timer 1000) (emit (ConsoleLog (retry_notice 1000 a 5)) w1)).
    destruct (IH (a + 1) others w2 fs) as (wj & Hrun & Hfj & Htj & Hrj & Htotj
                                           & Hfilj & Hdirj & Hij & Hdj);
      [cbn; congruence | exact Hf1 | lia |].
    exists wj. split; [exact Hrun |]. cbn in Htj, Hrj, Htotj, Hfilj, Hdirj.
    repeat split; try congruence.
    + rewrite Hij. unfold w2.
      rewrite invocations_emit_other, invocations_emit_other, Hi1 by exact I.
      by rewrite <- app_assoc.
    + rewrite Hdj. unfold w2.
      rewrite delays_emit_timer, delays_emit_other, Hd1 by exact I.
      by rewrite <- app_assoc.
Qed.

(** ** Reading leaves no mark but the stream's events *)

Lemma omap_data {A} (f : Event -> option A) (batch : list Record_) :
  (forall record, f (Data record) = None) -> omap f (Data <$> batch) = [].
Proof.
  intros Hf. induction batch as [|record rest IH]; [reflexivity |].
  cbn. by rewrite Hf.
Qed.

Lemma at_end_traces filePath batch w w0 :
  at_end filePath batch w w0 ->
  invocations (trace w0) = invocations (trace w)
  /\ delays (trace w0) = delays (trace w)
  /\ statements (trace w0) = statements (trace w)
  /\ logged (trace w0) = logged (trace w).
Proof.
  intros (Htr & _). rewrite Htr.
  unfold invocations, delays, statements, logged.
  rewrite !omap_app. cbn. rewrite !omap_app. cbn.
  rewrite !omap_data by reflexivity. cbn. rewrite !app_nil_r. repeat split.
Qed.

(** ** Whole calls *)

Lemma processCSVStream_parsed filePath tableName w content batch :
  files w !! filePath = Some content ->
  parse_csv content = inr batch ->
  exists w0,
    at_end filePath batch w w0
    /\ processCSVStream filePath tableName w
       = (retryOperation (insertBatch tableName) 5 1000;;
          n ← gets totalInserted;
          console_log (finished_line n tableName)) w0.
Proof.
  intros Hfile Hparse.
  destruct (processCSVStream filePath tableName w) as [r w'] eqn:H.
  apply processCSVStream_reads in H. rewrite Hfile, Hparse in H.
  destruct H as (w0 & Hend & Hrun). exists w0. by rewrite Hrun.
Qed.

Lemma finish_ok tableName w0 w1 :
  retryOperation (insertBatch tableName) 5 1000 w0 = (Ok tt, w1) ->
  (retryOperation (insertBatch tableName) 5 1000;;
   n ← gets totalInserted;
   console_log (finished_line n tableName)) w0
  = (Ok tt, emit (ConsoleLog (finished_line (totalInserted w1) tableName)) w1).
Proof. intros H. rewrite (bind_ok _ _ _ _ _ H). reflexivity. Qed.

Lemma finish_err tableName w0 e w1 :
  retryOperation (insertBatch tableName) 5 1000 w0 = (Err e, w1) ->
  (retryOperation (insertBatch tableName) 5 1000;;
   n ← gets totalInserted;
   console_log (finished_line n tableName)) w0
  = (Err e, w1).
Proof. intros H. by rewrite (bind_err _ _ _ _ _ H). Qed.

(** X3: a file with at least one record, whose keys are new to the table
    and pairwise different, is loaded in full although the engine reports
    a lock on the first statement of the first [j <= 4] attempts and then
    accepts everything: the batch is committed once, after [j + 1] attempts
    and [j] delays of one second, and the reported count is its size. *)
Theorem load_recovers_from_locks
    (filePath tableName content : string) (batch : list Record_)
    (t : Table) (j : nat) (w : World) :
  files w !! filePath = Some content ->
  parse_csv content = inr batch ->
  batch <> [] ->
  tables w !! tableName = Some t ->
  NoDup (record_get (primaryKey t) <$> (rows t ++ batch)) ->
  faults w = replicate j (Some sqlite_busy) ->
  (j <= 4)%nat ->
  let out := processCSVStream filePath tableName w in
  fst out = Ok tt
  /\ tables (snd out)
     = <[tableName := mkTable (primaryKey t) (rows t ++ batch)]> (tables w)
  /\ invocations (trace (snd out)) = invocations (trace w) ++ seqZ 1 (Z.of_nat (S j))
  /\ delays (trace (snd out)) = delays (trace w) ++ replicate j 1000
  /\ totalInserted (snd out) = Z.of_nat (length batch)
  /\ faults (snd out) = [].
Proof.
  intros Hfile Hparse Hne Ht Hnd Hf Hj. cbn zeta.
  destruct (processCSVStream_parsed filePath tableName w content batch Hfile Hparse)
    as (w0 & Hend & ->).
  pose proof (at_end_traces _ _ _ _ Hend) as (Hi0 & Hd0 & _).
  destruct Hend as (_ & Hrec0 & Htot0 & Htab0 & Hfa0 & _).
  destruct batch as [|record rest]; [congruence |].
  assert (Hsplit : seqZ 1 5 = seqZ 1 (Z.of_nat j) ++ seqZ (1 + Z.of_nat j) (Z.of_nat (S (4 - j)))).
  { rewrite <- seqZ_app by lia. f_equal. lia. }
  destruct (locked_attempts tableName record rest j 1
              (seqZ (1 + Z.of_nat j) (Z.of_nat (S (4 - j)))) w0 [])
    as (wj & Hloop & Hfj & Htj & Hrj & Htotj & _ & _ & Hij & Hdj);
    [assumption | by rewrite app_nil_r, Hfa0 | lia |].
  set (wa := emit (Invoke (1 + Z.of_nat j)) wj).
  destruct (insertBatch_accepted tableName wa t) as (w1 & Hop & Hf1);
    [exact Hfj | cbn; by rewrite Htj, Htab0 |].
  assert (Hrows : insert_rows tableName t (records wa)
                  = inr (mkTable (primaryKey t) (rows t ++ record :: rest))).
  { cbn. rewrite Hrj, Hrec0. destruct t as [pk existing]. by apply insert_rows_fresh. }
  rewrite Hrows in Hop.
  assert (Hretry : retryOperation (insertBatch tableName) 5 1000 w0 = (Ok tt, w1)).
  { unfold retryOperation. cbn [floor Int unshift]. rewrite Hsplit, Hloop, seqZ_from.
    rewrite retryLoop_first_call; [exact Hop |].
    intros e He. fold wa in He. rewrite Hop in He. discriminate. }
  rewrite (finish_ok _ _ _ Hretry). cbn [fst snd].
  pose proof (insertBatch_spec _ _ _ _ Hop) as (_ & _ & _ & _ & Htot1 & Htab1).
  destruct (insertBatch_quiet tableName) as [Hqi Hqd].
  pose proof (Hqi _ _ _ Hop) as Hi1. pose proof (Hqd _ _ _ Hop) as Hd1.
  unfold same in Hi1, Hd1. unfold wa in Hi1, Hd1.
  rewrite invocations_emit_invoke in Hi1. rewrite delays_emit_other in Hd1 by exact I.
  unfold wa, emit in Htot1. cbn [totalInserted records] in Htot1.
  rewrite Hrj, Hrec0 in Htot1.
  specialize (Htab1 t). cbn in Htab1. rewrite Htj, Htab0, Hrj, Hrec0 in Htab1.
  split; [reflexivity |]. split; [cbn; by apply Htab1 |].
  split; [| split; [| split]].
  - rewrite invocations_emit_other by exact I.
    rewrite Hi1, Hij, Hi0, seqZ_S, <- app_assoc. do 3 f_equal.
  - rewrite delays_emit_other by exact I. by rewrite Hd1, Hdj, Hd0.
  - unfold emit. cbn [totalInserted]. rewrite Htot1, Htotj, Htot0. lia.
  - exact Hf1.
Qed.

Lemma load_recovers_from_locks_witness :
  let out := processCSVStream "people.csv" "people"
               (people_world [Some sqlite_busy; Some sqlite_busy]) in
  fst out = Ok tt
  /\ tables (snd out)
     = <["people" := mkTable "id" ([] ++ [alice; bob; carol])]>
         (tables (people_world [Some sqlite_busy; Some sqlite_busy]))
  /\ invocations (trace (snd out))
     = invocations (trace (people_world [Some sqlite_busy; Some sqlite_busy]))
       ++ seqZ 1 (Z.of_nat 3)
  /\ delays (trace (snd out))
     = delays (trace (people_world [Some sqlite_busy; Some sqlite_busy]))
       ++ replicate 2 1000
  /\ totalInserted (snd out) = Z.of_nat (length [alice; bob; carol])
  /\ faults (snd out) = [].
Proof.
  apply (load_recovers_from_locks "people.csv" "people" people_csv
           [alice; bob; carol] (mkTable "id" []) 2
           (people_world [Some sqlite_busy; Some sqlite_busy])).
  - vm_compute. reflexivity.
  - vm_compute. reflexivity.
  - discriminate.
  - vm_compute. reflexivity.
  - apply (bool_decide_unpack (NoDup _)). vm_compute. exact I.
  - reflexivity.
  - lia.
Defined.

(** X4: when the engine reports a lock on each of the first five or more
    statements, the call stops after exactly five attempts and four delays
    and fails with the engine's lock error; each attempt was refused on its
    first insert, and no table changed. *)
Theorem load_gives_up_after_five
    (filePath tableName content : string) (batch : list Record_)
    (j : nat) (w : World) :
  files w !! filePath = Some content ->
  parse_csv content = inr batch ->
  batch <> [] ->
  faults w = replicate j (Some sqlite_busy) ->
  (5 <= j)%nat ->
  let out := processCSVStream filePath tableName w in
  fst out = Err sqlite_busy
  /\ tables (snd out) = tables w
  /\ invocations (trace (snd out)) = invocations (trace w) ++ [1; 2; 3; 4; 5]
  /\ delays (trace (snd out)) = delays (trace w) ++ [1000; 1000; 1000; 1000]
  /\ faults (snd out) = replicate (j - 5) (Some sqlite_busy).
Proof.
  intros Hfile Hparse Hne Hf Hj. cbn zeta.
  destruct (processCSVStream_parsed filePath tableName w content batch Hfile Hparse)
    as (w0 & Hend & ->).
  pose proof (at_end_traces _ _ _ _ Hend) as (Hi0 & Hd0 & _).
  destruct Hend as (_ & Hrec0 & Htot0 & Htab0 & Hfa0 & _).
  destruct batch as [|record rest]; [congruence |].
  destruct (locked_attempts tableName record rest 4 1 [5] w0
              (Some sqlite_busy :: replicate (j - 5) (Some sqlite_busy)))
    as (w4 & Hloop & Hf4 & Ht4 & Hr4 & _ & _ & _ & Hi4 & Hd4);
    [assumption | | lia |].
  { rewrite Hfa0, Hf. replace j with (4 + S (j - 5))%nat at 1 by lia.
    by rewrite replicate_add. }
  destruct (insertBatch_refused tableName (emit (Invoke 5) w4) sqlite_busy
              (replicate (j - 5) (Some sqlite_busy)) record rest)
    as (w5 & Hop & Hf5 & _); [exact Hf4 | cbn; congruence |].
  assert (Hretry : retryOperation (insertBatch tableName) 5 1000 w0
                   = (Err sqlite_busy, w5)).
  { unfold retryOperation. cbn [floor Int unshift]. change (seqZ 1 5) with (seqZ 1 (Z.of_nat 4) ++ [5]).
    rewrite Hloop. rewrite retryLoop_first_call; [exact Hop |].
    intros e _. apply andb_false_r. }
  rewrite (finish_err _ _ _ _ Hretry). cbn [fst snd].
  pose proof (insertBatch_spec _ _ _ _ Hop) as (_ & _ & _ & _ & Htab5).
  destruct (insertBatch_quiet tableName) as [Hqi Hqd].
  pose proof (Hqi _ _ _ Hop) as Hi5. pose proof (Hqd _ _ _ Hop) as Hd5.
  unfold same in Hi5, Hd5.
  rewrite invocations_emit_invoke in Hi5. rewrite delays_emit_other in Hd5 by exact I.
  cbn in Htab5.
  split; [reflexivity |]. split; [congruence |]. split; [| split].
  - rewrite Hi5, Hi4, Hi0, <- app_assoc. reflexivity.
  - rewrite Hd5, Hd4, Hd0. reflexivity.
  - exact Hf5.
Qed.

Lemma load_gives_up_after_five_witness :
  let out := processCSVStream "people.csv" "people"
               (people_world (replicate 6 (Some sqlite_busy))) in
  fst out = Err sqlite_busy
  /\ tables (snd out) = tables (people_world (replicate 6 (Some sqlite_busy)))
  /\ invocations (trace (snd out))
     = invocations (trace (people_world (replicate 6 (Some sqlite_busy))))
       ++ [1; 2; 3; 4; 5]
  /\ delays (trace (snd out))
     = delays (trace (people_world (replicate 6 (Some sqlite_busy))))
       ++ [1000; 1000; 1000; 1000]
  /\ faults (snd out) = replicate (6 - 5) (Some sqlite_busy).
Proof.
  apply (load_gives_up_after_five "people.csv" "people" people_csv
           [alice; bob; carol] 6 (people_world (replicate 6 (Some sqlite_busy)))).
  - vm_compute. reflexivity.
  - vm_compute. reflexivity.
  - discriminate.
  - reflexivity.
  - lia.
Defined.

Lemma omap_none {A} (f : Event -> option A) (evs : list Event) :
  Forall (fun ev => f ev = None) evs -> omap f evs = [].
Proof.
  induction 1 as [|ev evs Hev _ IH]; [reflexivity |]. cbn. by rewrite Hev, IH.
Qed.

Lemma reading_only filePath w w' :
  emits (reading_event filePath) w w' ->
  statements (trace w') = statements (trace w)
  /\ invocations (trace w') = invocations (trace w)
  /\ delays (trace w') = delays (trace w)
  /\ logged (trace w') = logged (trace w).
Proof.
  intros (evs & -> & F). unfold statements, invocations, delays, logged.
  rewrite !omap_app.
  assert (Hnone : forall A (f : Event -> option A),
            (forall ev, reading_event filePath ev -> f ev = None) -> omap f evs = []).
  { intros A f Hf. apply omap_none. eapply Forall_impl; [exact F | exact Hf]. }
  rewrite !Hnone, !app_nil_r; [repeat split | | | |];
    intros [] Hev; try reflexivity; contradiction.
Qed.

(** X5: a line with the wrong number of fields makes the call fail with
    the parser's error before anything is sent to the database: no
    statement, not even BEGIN, no call of the retried operation, and the
    tables are as they were. *)
Theorem parse_error_aborts_before_database
    (filePath tableName content : string) (e : JsError) (w : World) :
  files w !! filePath = Some content ->
  parse_csv content = inl e ->
  let out := processCSVStream filePath tableName w in
  fst out = Err e
  /\ tables (snd out) = tables w
  /\ statements (trace (snd out)) = statements (trace w)
  /\ invocations (trace (snd out)) = invocations (trace w)
  /\ logged (trace (snd out)) = logged (trace w).
Proof.
  intros Hfile Hparse. cbn zeta.
  destruct (processCSVStream filePath tableName w) as [r w'] eqn:H.
  apply processCSVStream_reads in H. rewrite Hfile, Hparse in H.
  destruct H as (-> & Htab & _ & _ & Hev).
  apply reading_only in Hev as (Hs & Hi & _ & Hl). cbn. repeat split; assumption.
Qed.

Lemma parse_error_aborts_before_database_witness :
  let out := processCSVStream "people.csv" "people" ragged_world in
  fst out = Err (csv.error (csv.CSV_RECORD_INCONSISTENT_COLUMNS 2 1) 3)
  /\ tables (snd out) = tables ragged_world
  /\ statements (trace (snd out)) = statements (trace ragged_world)
  /\ invocations (trace (snd out)) = invocations (trace ragged_world)
  /\ logged (trace (snd out)) = logged (trace ragged_world).
Proof.
  apply (parse_error_aborts_before_database "people.csv" "people" ragged_csv).
  - vm_compute. reflexivity.
  - vm_compute. reflexivity.
Defined.

(** X6: a file in which the parser finds no record (empty, blank lines
    only, or just a header) is a success: one empty transaction is committed on the first
    attempt and "Finished inserting 0 records" is written. The engine is
    not asked anything, so this holds even when the target table does not
    exist or the database is locked. *)
Theorem file_without_rows_succeeds
    (filePath tableName content : string) (w : World) :
  files w !! filePath = Some content ->
  parse_csv content = inr [] ->
  let out := processCSVStream filePath tableName w in
  fst out = Ok tt
  /\ trace (snd out)
     = trace w ++ [Open filePath; End_; Invoke 1; Sql Begin; Sql Commit;
                   ConsoleLog (finished_line 0 tableName)]
  /\ tables (snd out) = tables w
  /\ faults (snd out) = faults w.
Proof.
  intros Hfile Hparse. cbn zeta.
  destruct (processCSVStream_parsed filePath tableName w content [] Hfile Hparse)
    as (w0 & Hend & ->).
  destruct Hend as (Htr0 & Hrec0 & Htot0 & Htab0 & Hfa0 & _).
  assert (Hop : insertBatch tableName (emit (Invoke 1) w0)
                = (Ok tt, emit (Sql Commit) (emit (Sql Begin) (emit (Invoke 1) w0)))).
  { rewrite insertBatch_run. cbn [records emit]. rewrite Hrec0. reflexivity. }
  assert (Hretry : retryOperation (insertBatch tableName) 5 1000 w0
                   = (Ok tt, emit (Sql Commit) (emit (Sql Begin) (emit (Invoke 1) w0)))).
  { unfold retryOperation. cbn [floor Int unshift]. rewrite seqZ_cons by lia.
    rewrite retryLoop_first_call; [exact Hop |].
    intros e He. rewrite Hop in He. discriminate. }
  rewrite (finish_ok _ _ _ Hretry). cbn. rewrite Htr0, Htot0. cbn.
  split; [reflexivity |]. split; [by list_norm |]. split; assumption.
Qed.

Lemma file_without_rows_succeeds_witness :
  let out := processCSVStream "people.csv" "people" header_only_world in
  fst out = Ok tt
  /\ trace (snd out)
     = trace header_only_world
       ++ [Open "people.csv"; End_; Invoke 1; Sql Begin; Sql Commit;
           ConsoleLog (finished_line 0 "people")]
  /\ tables (snd out) = tables header_only_world
  /\ faults (snd out) = faults header_only_world.
Proof.
  apply (file_without_rows_succeeds "people.csv" "people" header_only_csv).
  - vm_compute. reflexivity.
  - vm_compute. reflexivity.
Defined.

(** ** Where a lock error can come from *)

Lemma insert_error tableName record w e w' :
  insert tableName record w = (Err e, w') ->
  Some e ∈ faults w \/ is_busy e = false.
Proof.
  unfold insert. intros H.
  apply bind_inv in H as [(a & w1 & H1 & H2) | [(e' & H1 & He) | (e' & H1 & He)]];
    [| | discriminate].
  - right. rewrite bind_run in H2. cbn in H2.
    destruct (tables w1 !! tableName) as [t|]; cbn in H2.
    + destruct (pk_taken t record); cbn in H2; inversion H2; reflexivity.
    + inversion H2. reflexivity.
  - left. inversion He; subst e'. apply submit_spec in H1 as [_ Hhead].
    destruct (faults w) as [|f fs]; [discriminate |]. inversion Hhead. left.
Qed.

Lemma insertRecords_error tableName : forall rs w e w',
  insertRecords tableName rs w = (Err e, w') ->
  Some e ∈ faults w \/ is_busy e = false.
Proof.
  induction rs as [|record rest IH]; intros w e w' H; [discriminate |].
  cbn [insertRecords] in H.
  apply bind_inv in H as [(a & w1 & H1 & H2) | [(e' & H1 & He) | (e' & H1 & He)]];
    [| | discriminate].
  - apply insert_spec in H1 as (_ & _ & _ & _ & _ & Hfa & _).
    rewrite !bind_run in H2. cbn in H2.
    rewrite bind_run in H2. cbn in H2. rewrite bind_run in H2.
    assert (Hstep : Some e ∈ faults w1 \/ is_busy e = false).
    { match type of H2 with context [if ?c then _ else _] => destruct c end;
        cbn in H2; apply IH in H2; exact H2. }
    destruct Hstep as [Hin | Hnb]; [left | by right].
    rewrite Hfa in Hin. destruct (faults w); [inversion Hin | by right].
  - inversion He; subst e'. by apply insert_error in H1.
Qed.

Lemma insertBatch_error tableName w e w' :
  insertBatch tableName w = (Err e, w') ->
  Some e ∈ faults w \/ is_busy e = false.
Proof.
  rewrite insertBatch_run.
  destruct (insertRecords tableName (records w) (emit (Sql Begin) w)) as [[[]|e0|e0] wh] eqn:Hh;
    intros H; inversion H; subst.
  by apply insertRecords_error in Hh.
Qed.

(** X7: when no fault in the engine's schedule is a lock, the insertion
    is attempted exactly once and nothing is waited for, whatever the
    outcome; and if the call succeeds, the count it reports is the number
    of records of the file. *)
Theorem no_lock_single_attempt
    (filePath tableName content : string) (batch : list Record_) (w : World) :
  files w !! filePath = Some content ->
  parse_csv content = inr batch ->
  (forall e, Some e ∈ faults w -> code e <> Some "SQLITE_BUSY") ->
  let out := processCSVStream filePath tableName w in
  invocations (trace (snd out)) = invocations (trace w) ++ [1]
  /\ delays (trace (snd out)) = delays (trace w)
  /\ (fst out = Ok tt ->
      totalInserted (snd out) = Z.of_nat (length batch)
      /\ last (trace (snd out))
         = Some (ConsoleLog (finished_line (Z.of_nat (length batch)) tableName))).
Proof.
  intros Hfile Hparse Hnolock. cbn zeta.
  destruct (processCSVStream_parsed filePath tableName w content batch Hfile Hparse)
    as (w0 & Hend & ->).
  pose proof (at_end_traces _ _ _ _ Hend) as (Hi0 & Hd0 & _).
  destruct Hend as (_ & Hrec0 & Htot0 & _ & Hfa0 & _).
  destruct (insertBatch tableName (emit (Invoke 1) w0)) as [r1 w1] eqn:Hop.
  assert (Hretry : retryOperation (insertBatch tableName) 5 1000 w0 = (r1, w1)).
  { unfold retryOperation. cbn [floor Int unshift]. rewrite seqZ_cons by lia.
    rewrite retryLoop_first_call; [exact Hop |].
    intros e He. rewrite Hop in He. cbn in He. subst r1.
    apply insertBatch_error in Hop as [Hin | Hnb]; [| by rewrite Hnb].
    cbn in Hin. rewrite Hfa0 in Hin. unfold is_busy.
    rewrite bool_decide_eq_false_2; [reflexivity | by apply Hnolock]. }
  pose proof (insertBatch_spec _ _ _ _ Hop) as (_ & _ & _ & _ & Hres).
  destruct (insertBatch_quiet tableName) as [Hqi Hqd].
  pose proof (Hqi _ _ _ Hop) as Hi1. pose proof (Hqd _ _ _ Hop) as Hd1.
  unfold same in Hi1, Hd1.
  rewrite invocations_emit_invoke in Hi1. rewrite delays_emit_other in Hd1 by exact I.
  destruct r1 as [[]|e|e]; [| | contradiction].
  - rewrite (finish_ok _ _ _ Hretry). cbn [fst snd].
    destruct Hres as [Htot1 _]. unfold emit in Htot1. cbn [totalInserted records] in Htot1.
    rewrite Htot0, Hrec0 in Htot1.
    rewrite invocations_emit_other, delays_emit_other by exact I.
    split; [congruence |]. split; [congruence |]. intros _. split.
    + unfold emit. cbn [totalInserted]. lia.
    + unfold emit at 1. cbn [trace]. rewrite last_snoc. do 3 f_equal. lia.
  - rewrite (finish_err _ _ _ _ Hretry). cbn [fst snd].
    split; [congruence |]. split; [congruence |]. discriminate.
Qed.

Lemma no_lock_single_attempt_witness :
  let out := processCSVStream "people.csv" "people" (people_world [None; Some cannot_open]) in
  invocations (trace (snd out))
  = invocations (trace (people_world [None; Some cannot_open])) ++ [1]
  /\ delays (trace (snd out)) = delays (trace (people_world [None; Some cannot_open]))
  /\ (fst out = Ok tt ->
      totalInserted (snd out) = Z.of_nat (length [alice; bob; carol])
      /\ last (trace (snd out))
         = Some (ConsoleLog (finished_line (Z.of_nat (length [alice; bob; carol])) "people"))).
Proof.
  apply (no_lock_single_attempt "people.csv" "people" people_csv).
  - vm_compute. reflexivity.
  - vm_compute. reflexivity.
  - intros e He. apply elem_of_cons in He as [He | He]; [discriminate |].
    apply list_elem_of_singleton in He. inversion He. discriminate.
Defined.

(** With no fault scheduled, a whole call is the pure fold over the batch. *)
Lemma load_without_faults filePath tableName content batch t w :
  files w !! filePath = Some content ->
  parse_csv content = inr batch ->
  tables w !! tableName = Some t ->
  faults w = [] ->
  exists w',
    processCSVStream filePath tableName w
    = (match insert_rows tableName t batch with inl e => Err e | inr _ => Ok tt end, w')
    /\ faults w' = []
    /\ files w' = files w
    /\ tables w'
       = match insert_rows tableName t batch with
         | inl _ => tables w
         | inr t' => <[tableName := t']> (tables w)
         end
    /\ invocations (trace w') = invocations (trace w) ++ [1]
    /\ delays (trace w') = delays (trace w).
Proof.
  intros Hfile Hparse Ht Hf.
  destruct (processCSVStream_parsed filePath tableName w content batch Hfile Hparse)
    as (w0 & Hend & ->).
  pose proof (at_end_traces _ _ _ _ Hend) as (Hi0 & Hd0 & _).
  destruct Hend as (_ & Hrec0 & _ & Htab0 & Hfa0 & Hfil0 & _).
  destruct (insertBatch_accepted tableName (emit (Invoke 1) w0) t) as (w1 & Hop & Hf1);
    [cbn; congruence | cbn; by rewrite Htab0 |].
  cbn [records emit] in Hop. rewrite Hrec0 in Hop.
  assert (Hretry : retryOperation (insertBatch tableName) 5 1000 w0
                   = (match insert_rows tableName t batch with
                      | inl e => Err e
                      | inr _ => Ok tt
                      end, w1)).
  { unfold retryOperation. cbn [floor Int unshift]. rewrite seqZ_cons by lia.
    rewrite retryLoop_first_call; [exact Hop |].
    intros e He. rewrite Hop in He. cbn in He.
    pose proof (insert_rows_shape tableName batch t) as Hshape.
    destruct (insert_rows tableName t batch); [| discriminate].
    inversion He; subst. reflexivity. }
  pose proof (insertBatch_spec _ _ _ _ Hop) as (_ & Hfil1 & _ & _ & Hres).
  destruct (insertBatch_quiet tableName) as [Hqi Hqd].
  pose proof (Hqi _ _ _ Hop) as Hi1. pose proof (Hqd _ _ _ Hop) as Hd1.
  unfold same in Hi1, Hd1.
  rewrite invocations_emit_invoke in Hi1. rewrite delays_emit_other in Hd1 by exact I.
  cbn in Hfil1.
  pose proof (insert_rows_shape tableName batch t) as Hshape.
  destruct (insert_rows tableName t batch) as [e|t'].
  - rewrite (finish_err _ _ _ _ Hretry). exists w1.
    cbn in Hres. repeat split; congruence.
  - rewrite (finish_ok _ _ _ Hretry). eexists. split; [reflexivity |].
    destruct Hres as [_ Htab1]. specialize (Htab1 t). cbn in Htab1.
    rewrite Htab0, Hrec0 in Htab1.
    rewrite invocations_emit_other, delays_emit_other by exact I. cbn.
    repeat split; try congruence. rewrite Htab1 by assumption. by rewrite Hshape.
Qed.

(** X8: with no fault scheduled, a record whose primary key is already in
    the table, or is the key of an earlier record of the same file, makes
    the call fail with the constraint error after a single attempt (it is
    not retried), and the table keeps exactly the rows it had: the records
    inserted before the clash are gone. *)
Theorem load_rejects_taken_key
    (filePath tableName content : string)
    (pre post : list Record_) (record : Record_) (t : Table) (w : World) :
  files w !! filePath = Some content ->
  parse_csv content = inr (pre ++ record :: post) ->
  tables w !! tableName = Some t ->
  faults w = [] ->
  pk_taken (mkTable (primaryKey t) (rows t ++ pre)) record = true ->
  let out := processCSVStream filePath tableName w in
  fst out = Err (sqlite_constraint tableName (primaryKey t))
  /\ tables (snd out) = tables w
  /\ invocations (trace (snd out)) = invocations (trace w) ++ [1]
  /\ delays (trace (snd out)) = delays (trace w).
Proof.
  intros Hfile Hparse Ht Hf Htaken. cbn zeta.
  destruct (load_without_faults _ tableName _ _ _ _ Hfile Hparse Ht Hf)
    as (w' & -> & _ & _ & Htab & Hi & Hd).
  assert (Hrows : insert_rows tableName t (pre ++ record :: post)
                  = inl (sqlite_constraint tableName (primaryKey t))).
  { destruct t as [pk existing]. by apply insert_rows_taken. }
  rewrite Hrows in *. cbn. repeat split; assumption.
Qed.

Lemma load_rejects_taken_key_witness :
  let out := processCSVStream "people.csv" "people" clash_file_world in
  fst out = Err (sqlite_constraint "people" "id")
  /\ tables (snd out) = tables clash_file_world
  /\ invocations (trace (snd out)) = invocations (trace clash_file_world) ++ [1]
  /\ delays (trace (snd out)) = delays (trace clash_file_world).
Proof.
  apply (load_rejects_taken_key "people.csv" "people" clash_csv
           [alice] [] bob_again (mkTable "id" []) clash_file_world).
  - vm_compute. reflexivity.
  - vm_compute. reflexivity.
  - vm_compute. reflexivity.
  - reflexivity.
  - vm_compute. reflexivity.
Defined.

Lemma pk_taken_member pk existing record v :
  record ∈ existing ->
  record_get pk record = Some v ->
  pk_taken (mkTable pk existing) record = true.
Proof.
  intros Hin Hv. unfold pk_taken. cbn. rewrite Hv.
  apply existsb_exists. exists record. split; [by apply list_elem_of_In |].
  by apply bool_decide_eq_true_2.
Qed.

(** X9: loading is not repeatable. After a file with at least one keyed
    record has been loaded, loading the same file again into the same
    table fails with the constraint error and adds nothing: the table is
    as the first load left it. *)
Theorem second_load_fails
    (filePath tableName content : string) (batch : list Record_)
    (record : Record_) (v : string) (t : Table) (w : World) :
  files w !! filePath = Some content ->
  parse_csv content = inr batch ->
  tables w !! tableName = Some t ->
  faults w = [] ->
  record ∈ batch ->
  record_get (primaryKey t) record = Some v ->
  let first := processCSVStream filePath tableName w in
  fst first = Ok tt ->
  let second := processCSVStream filePath tableName (snd first) in
  fst second = Err (sqlite_constraint tableName (primaryKey t))
  /\ tables (snd second) = tables (snd first)
  /\ tables (snd first) !! tableName
     = Some (mkTable (primaryKey t) (rows t ++ batch)).
Proof.
  intros Hfile Hparse Ht Hf Hin Hv. cbn zeta.
  destruct (load_without_faults _ tableName _ _ _ _ Hfile Hparse Ht Hf)
    as (w1 & -> & Hf1 & Hfil1 & Htab1 & _). cbn [fst snd].
  pose proof (insert_rows_shape tableName batch t) as Hshape.
  destruct (insert_rows tableName t batch) as [e|t1]; [discriminate |]. intros _.
  subst t1.
  assert (Ht1 : tables w1 !! tableName = Some (mkTable (primaryKey t) (rows t ++ batch)))
    by (rewrite Htab1; apply lookup_insert_eq).
  assert (Hfile1 : files w1 !! filePath = Some content) by (by rewrite Hfil1).
  destruct (load_without_faults _ tableName _ _ _ _ Hfile1 Hparse Ht1 Hf1)
    as (w2 & -> & _ & _ & Htab2 & _). cbn [fst snd].
  apply list_elem_of_split in Hin as (pre & post & ->).
  assert (Hrows : insert_rows tableName (mkTable (primaryKey t) (rows t ++ pre ++ record :: post))
                    (pre ++ record :: post)
                  = inl (sqlite_constraint tableName (primaryKey t))).
  { apply insert_rows_taken. apply pk_taken_grows.
    apply (pk_taken_member _ _ _ v); [| assumption].
    apply elem_of_app. right. apply elem_of_app. right. left. }
  rewrite Hrows in *. repeat split; assumption.
Qed.

Lemma second_load_fails_witness :
  let first := processCSVStream "people.csv" "people" (people_world []) in
  let second := processCSVStream "people.csv" "people" (snd first) in
  fst second = Err (sqlite_constraint "people" "id")
  /\ tables (snd second) = tables (snd first)
  /\ tables (snd first) !! "people" = Some (mkTable "id" ([] ++ [alice; bob; carol])).
Proof.
  cbn zeta.
  apply (second_load_fails "people.csv" "people" people_csv [alice; bob; carol]
           alice "1" (mkTable "id" []) (people_world [])).
  - vm_compute. reflexivity.
  - vm_compute. reflexivity.
  - vm_compute. reflexivity.
  - reflexivity.
  - left.
  - reflexivity.
  - vm_compute. reflexivity.
Defined.

(** ** Progress lines *)

Lemma milestones_S tableName from n :
  milestones tableName from (S n)
  = (if ((from + 1) mod 1000 =? 0)%Z then [progress_line (from + 1) tableName] else [])
    ++ milestones tableName (from + 1) n.
Proof.
  unfold milestones. rewrite seqZ_from, filter_cons.
  destruct (Z.eqb_spec ((from + 1) mod 1000) 0) as [Heq | Hne].
  - rewrite decide_True by assumption. reflexivity.
  - rewrite decide_False by assumption. reflexivity.
Qed.

Lemma logged_emit_log line w :
  logged (trace (emit (ConsoleLog line) w)) = logged (trace w) ++ [line].
Proof. unfold logged. cbn. by rewrite omap_app. Qed.

Lemma logged_emit_other ev w :
  match ev with ConsoleLog _ => False | _ => True end ->
  logged (trace (emit ev w)) = logged (trace w).
Proof.
  intros H. unfold logged. cbn. rewrite omap_app. destruct ev; try contradiction;
    cbn; apply app_nil_r.
Qed.

Lemma insertRecords_logged tableName : forall rs w w',
  insertRecords tableName rs w = (Ok tt, w') ->
  logged (trace w') = logged (trace w) ++ milestones tableName (totalInserted w) (length rs).
Proof.
  induction rs as [|record rest IH]; intros w w' H.
  - inversion H; subst. unfold milestones. cbn. by rewrite app_nil_r.
  - cbn [insertRecords] in H.
    apply bind_inv in H as [(a & w1 & H1 & H2) | [(e & H1 & He) | (e & H1 & He)]];
      [| discriminate | discriminate].
    apply insert_spec in H1 as (Htr & _ & Htot & _).
    assert (Hl1 : logged (trace w1) = logged (trace w))
      by (rewrite Htr; unfold logged; rewrite omap_app; apply app_nil_r).
    rewrite !bind_run in H2. cbn in H2.
    rewrite bind_run in H2. cbn in H2. rewrite bind_run in H2.
    cbn [length]. rewrite milestones_S, <- Htot.
    destruct ((totalInserted w1 + 1) mod 1000 =? 0)%Z; cbn in H2;
      apply IH in H2; rewrite H2.
    + rewrite logged_emit_log. cbn [totalInserted emit set_totalInserted trace].
      unfold logged at 1. cbn [trace set_totalInserted]. fold (logged (trace w1)).
      rewrite Hl1, <- app_assoc. reflexivity.
    + cbn [totalInserted set_totalInserted]. unfold logged at 1.
      cbn [trace set_totalInserted]. fold (logged (trace w1)). by rewrite Hl1.
Qed.

Lemma milestones_few tableName n :
  (n < 1000)%nat -> milestones tableName 0 n = [].
Proof.
  intros Hn. unfold milestones.
  assert (Hnone : filter (fun k => k mod 1000 = 0) (seqZ (0 + 1) (Z.of_nat n)) = []);
    [| by rewrite Hnone].
  assert (Hall : Forall (fun k => 0 < k < 1000) (seqZ (0 + 1) (Z.of_nat n))).
  { apply Forall_forall. intros k Hk. apply elem_of_seqZ in Hk. lia. }
  induction Hall as [|k ks Hk _ IH]; [reflexivity |].
  rewrite filter_cons, decide_False; [exact IH |].
  rewrite Z.mod_small by lia. lia.
Qed.

(** X10: on a call that needs a single attempt and succeeds, the lines
    written to the console are one progress line for every thousandth
    record (after the 1000th, the 2000th, ... insert) followed by the
    closing line with the size of the batch; a batch of fewer than 1000
    records writes the closing line only. *)
Theorem progress_every_thousand
    (filePath tableName content : string) (batch : list Record_) (w : World) :
  files w !! filePath = Some content ->
  parse_csv content = inr batch ->
  (forall e, Some e ∈ faults w -> code e <> Some "SQLITE_BUSY") ->
  let out := processCSVStream filePath tableName w in
  fst out = Ok tt ->
  logged (trace (snd out))
  = logged (trace w)
    ++ ((fun k => progress_line k tableName)
          <$> filter (fun k => k mod 1000 = 0) (seqZ 1 (Z.of_nat (length batch))))
    ++ [finished_line (Z.of_nat (length batch)) tableName]
  /\ ((length batch < 1000)%nat ->
      logged (trace (snd out))
      = logged (trace w) ++ [finished_line (Z.of_nat (length batch)) tableName]).
Proof.
  intros Hfile Hparse Hnolock. cbn zeta.
  destruct (processCSVStream_parsed filePath tableName w content batch Hfile Hparse)
    as (w0 & Hend & ->).
  pose proof (at_end_traces _ _ _ _ Hend) as (_ & _ & _ & Hl0).
  destruct Hend as (_ & Hrec0 & Htot0 & _ & Hfa0 & _).
  destruct (insertBatch tableName (emit (Invoke 1) w0)) as [r1 w1] eqn:Hop.
  assert (Hretry : retryOperation (insertBatch tableName) 5 1000 w0 = (r1, w1)).
  { unfold retryOperation. cbn [floor Int unshift]. rewrite seqZ_cons by lia.
    rewrite retryLoop_first_call; [exact Hop |].
    intros e He. rewrite Hop in He. cbn in He. subst r1.
    apply insertBatch_error in Hop as [Hin | Hnb]; [| by rewrite Hnb].
    cbn in Hin. rewrite Hfa0 in Hin. unfold is_busy.
    rewrite bool_decide_eq_false_2; [reflexivity | by apply Hnolock]. }
  pose proof (insertBatch_spec _ _ _ _ Hop) as (_ & _ & _ & _ & Hres).
  destruct r1 as [[]|e|e]; [| rewrite (finish_err _ _ _ _ Hretry); discriminate
                            | contradiction].
  rewrite (finish_ok _ _ _ Hretry). cbn [fst snd]. intros _.
  destruct Hres as [Htot1 _]. unfold emit in Htot1. cbn [totalInserted records] in Htot1.
  rewrite Htot0, Hrec0 in Htot1.
  assert (Hl1 : logged (trace w1)
                = logged (trace w) ++ milestones tableName 0 (length batch)).
  { rewrite insertBatch_run in Hop.
    destruct (insertRecords tableName (records (emit (Invoke 1) w0))
                (emit (Sql Begin) (emit (Invoke 1) w0))) as [[[]|e|e] wh] eqn:Hh;
      inversion Hop; subst.
    apply insertRecords_logged in Hh. rewrite logged_emit_other by exact I.
    rewrite Hh. rewrite !logged_emit_other by exact I. rewrite Hl0.
    cbn [totalInserted records emit]. by rewrite Htot0. }
  rewrite logged_emit_log, Hl1, Htot1, <- app_assoc.
  replace (0 + Z.of_nat (length batch)) with (Z.of_nat (length batch)) by lia.
  split; [reflexivity |].
  intros Hfew. by rewrite (milestones_few _ _ Hfew).
Qed.

Lemma progress_every_thousand_witness :
  let out := processCSVStream "people.csv" "people" (numbered_world 1000) in
  logged (trace (snd out))
  = ["Inserted 1000 records into people";
     "Finished inserting 1000 records into people"]
  /\ logged (trace (snd out))
     = logged (trace (numbered_world 1000))
       ++ ((fun k => progress_line k "people")
             <$> filter (fun k => k mod 1000 = 0)
                   (seqZ 1 (Z.of_nat (length (numbered_rows 1000)))))
       ++ [finished_line (Z.of_nat (length (numbered_rows 1000))) "people"]
  /\ ((length (numbered_rows 1000) < 1000)%nat ->
      logged (trace (snd out))
      = logged (trace (numbered_world 1000))
        ++ [finished_line (Z.of_nat (length (numbered_rows 1000))) "people"]).
Proof.
  intros out. split; [vm_compute; reflexivity |].
  apply (progress_every_thousand "people.csv" "people" (numbered_csv 1000)).
  - vm_compute. reflexivity.
  - vm_compute. reflexivity.
  - intros e He. inversion He.
  - vm_compute. reflexivity.
Defined.

(** ** Rows are only ever added *)

#[global] Instance appends_to_preorder tableName : PreOrder (appends_to tableName).
Proof.
  split.
  - intros w name. destruct (tables w !! name) as [t|] eqn:Ht; [| reflexivity].
    exists []. rewrite app_nil_r. split; [by destruct t | reflexivity].
  - intros w1 w2 w3 H12 H23 name. specialize (H12 name). specialize (H23 name).
    destruct (tables w1 !! name) as [t|].
    + destruct H12 as (a1 & H12 & Hn1). rewrite H12 in H23.
      destruct H23 as (a2 & H23 & Hn2). exists (a1 ++ a2). cbn in H23.
      rewrite app_assoc. split; [exact H23 |].
      intros Hne. by rewrite (Hn1 Hne), (Hn2 Hne).
    + by rewrite H12 in H23.
Qed.

Lemma appends_to_same_tables tableName w w' :
  tables w' = tables w -> appends_to tableName w w'.
Proof.
  intros Heq name. rewrite Heq.
  destruct (tables w !! name) as [t|] eqn:Ht; [| reflexivity].
  exists []. rewrite app_nil_r. split; [by destruct t | reflexivity].
Qed.

Lemma appends_to_insert tableName w w' t added :
  tables w !! tableName = Some t ->
  tables w' = <[tableName := mkTable (primaryKey t) (rows t ++ added)]> (tables w) ->
  appends_to tableName w w'.
Proof.
  intros Ht Heq name. rewrite Heq.
  destruct (decide (name = tableName)) as [-> | Hne].
  - rewrite Ht, lookup_insert_eq. exists added. split; [reflexivity | congruence].
  - rewrite lookup_insert_ne by congruence.
    destruct (tables w !! name) as [t0|] eqn:Ht0; [| reflexivity].
    exists []. rewrite app_nil_r. split; [by destruct t0 | reflexivity].
Qed.

Lemma insertRecords_appends tableName : forall rs w r w',
  insertRecords tableName rs w = (r, w') -> appends_to tableName w w'.
Proof.
  induction rs as [|record rest IH]; intros w r w' H.
  - inversion H. reflexivity.
  - cbn [insertRecords] in H.
    apply bind_inv in H as [(a & w1 & H1 & H2) | [(e & H1 & ->) | (e & H1 & ->)]];
      apply insert_spec in H1 as (_ & _ & _ & _ & _ & _ & Hres);
      [| by apply appends_to_same_tables | contradiction].
    destruct Hres as (t & Ht & _ & Htab).
    rewrite !bind_run in H2. cbn in H2.
    rewrite bind_run in H2. cbn in H2. rewrite bind_run in H2.
    transitivity w1; [by eapply appends_to_insert |].
    match type of H2 with context [if ?c then _ else _] => destruct c end;
      cbn in H2; apply IH in H2; intros name; specialize (H2 name); exact H2.
Qed.

Lemma insertBatch_appends tableName w r w' :
  insertBatch tableName w = (r, w') -> appends_to tableName w w'.
Proof.
  rewrite insertBatch_run.
  destruct (insertRecords tableName (records w) (emit (Sql Begin) w)) as [rh wh] eqn:Hh.
  apply insertRecords_appends in Hh.
  destruct rh as [[]|e|e]; intros H; inversion H; subst.
  - intros name. exact (Hh name).
  - by apply appends_to_same_tables.
  - intros name. exact (Hh name).
Qed.

(** X11: whatever happens during a call (success, parse error, refused
    statements, retries), it only ever appends rows to the target table:
    every table keeps its key column and the rows it had, in their order;
    tables other than the target are unchanged; no table is created or
    dropped; and the files are not touched. *)
Theorem load_only_appends (filePath tableName : string) (w : World) :
  let out := processCSVStream filePath tableName w in
  files (snd out) = files w
  /\ forall name,
       match tables w !! name with
       | Some t =>
           exists added,
             tables (snd out) !! name = Some (mkTable (primaryKey t) (rows t ++ added))
             /\ (name <> tableName -> added = [])
       | None => tables (snd out) !! name = None
       end.
Proof.
  cbn zeta. destruct (processCSVStream filePath tableName w) as [r w'] eqn:H. cbn [snd].
  pose proof (processCSVStream_spec _ _ _ _ _ H) as (Hfil & _ & _).
  split; [exact Hfil |]. fold (appends_to tableName w w').
  apply processCSVStream_reads in H.
  destruct (files w !! filePath) as [content|];
    [| apply appends_to_same_tables; tauto].
  destruct (parse_csv content) as [e|batch];
    [apply appends_to_same_tables; tauto |].
  destruct H as (w0 & (_ & _ & _ & Htab0 & _) & Hrun).
  transitivity w0; [by apply appends_to_same_tables |].
  assert (Hretry : forall r1 w1,
            retryOperation (insertBatch tableName) 5 1000 w0 = (r1, w1) ->
            appends_to tableName w0 w1).
  { intros r1 w1 Hr. unfold retryOperation in Hr. cbn [floor Int unshift] in Hr.
    eapply (retryLoop_deciding_call _ _ _ (appends_to tableName)) in Hr
      as (wl & HR & Hlast).
    - destruct Hlast as [Hop | [_ ->]]; [| exact HR].
      transitivity wl; [exact HR | by eapply insertBatch_appends].
    - intros w1' attempt. by apply appends_to_same_tables.
    - intros w1' attempt. by apply appends_to_same_tables.
    - intros w1'. by apply appends_to_same_tables.
    - intros w1' e w2 Hop. by eapply insertBatch_appends. }
  apply bind_inv in Hrun as [(a & w1 & H1 & H2) | [(e & H1 & _) | (e & H1 & _)]];
    try (by eapply Hretry).
  rewrite bind_run in H2. cbn in H2. inversion H2; subst.
  transitivity w1; [by eapply Hretry | by apply appends_to_same_tables].
Qed.

(** ** The probe and the orchestrator *)

(** X12: the probe never throws. It sends one [SELECT 1]; if the engine
    refuses it the error is written to the console and the answer is
    [false], otherwise the answer is [true]. No table and no file changes. *)
Theorem probe_never_throws (w : World) :
  let out := checkDatabaseConnection w in
  match head (faults w) with
  | Some (Some e) =>
      fst out = Ok false
      /\ trace (snd out)
         = trace w ++ [Sql SelectOne; ConsoleError "Database connection failed:" (Some e)]
  | _ =>
      fst out = Ok true
      /\ trace (snd out)
         = trace w ++ [Sql SelectOne; ConsoleLog "Database connected successfully"]
  end
  /\ tables (snd out) = tables w
  /\ files (snd out) = files w
  /\ faults (snd out) = tail (faults w).
Proof.
  cbn zeta. rewrite checkDatabaseConnection_run.
  destruct (head (faults w)) as [[e|]|]; cbn; rewrite <- app_assoc; repeat split.
Qed.

(** X13: when the engine refuses the probe, [main] reads no file and
    sends no other statement: it writes the two error lines, destroys the
    connection, and completes normally with every table and file as it was. *)
Theorem failed_probe_ends_the_run (w : World) (e : JsError) :
  head (faults w) = Some (Some e) ->
  fst (main w) = Ok tt
  /\ trace (snd (main w))
     = trace w ++ [Sql SelectOne;
                   ConsoleError "Database connection failed:" (Some e);
                   ConsoleError "Exiting due to database connection failure" None;
                   Destroy;
                   ConsoleLog "Database connection closed"]
  /\ tables (snd (main w)) = tables w
  /\ files (snd (main w)) = files w.
Proof.
  intros Hhead. rewrite main_run.
  assert (Htry : main_try w
    = (Ok tt, emit (ConsoleError "Exiting due to database connection failure" None)
                (emit (ConsoleError "Database connection failed:" (Some e))
                   (set_faults (tail (faults w)) (emit (Sql SelectOne) w))))).
  { unfold main_try. rewrite bind_run, checkDatabaseConnection_run, Hhead. reflexivity. }
  rewrite Htry. cbn. split; [reflexivity |]. split; [by list_norm |]. split; reflexivity.
Qed.

Lemma failed_probe_ends_the_run_witness :
  fst (main scenario_D) = Ok tt
  /\ trace (snd (main scenario_D))
     = trace scenario_D ++ [Sql SelectOne;
                            ConsoleError "Database connection failed:" (Some cannot_open);
                            ConsoleError "Exiting due to database connection failure" None;
                            Destroy;
                            ConsoleLog "Database connection closed"]
  /\ tables (snd (main scenario_D)) = tables scenario_D
  /\ files (snd (main scenario_D)) = files scenario_D.
Proof.
  apply (failed_probe_ends_the_run scenario_D cannot_open). reflexivity.
Defined.

Lemma main_try_second_file w wc w3 :
  checkDatabaseConnection w = (Ok true, wc) ->
  processCSVStream (customers_csv w) "customers"
    (emit (ConsoleLog "Starting to insert customers") wc) = (Ok tt, w3) ->
  main_try w
  = (processCSVStream (organizations_csv w) "organizations";;
     console_log "All data insertion completed";;
     customerCount ← count "customers";
     orgCount ← count "organizations";
     console_log ("Customers in database: " +:+ pretty customerCount);;
     console_log ("Organizations in database: " +:+ pretty orgCount))
      (emit (ConsoleLog "Starting to insert organizations") w3).
Proof.
  intros Hcheck Hfirst.
  pose proof (checkDatabaseConnection_spec _ _ _ Hcheck) as (_ & _ & _ & Hdc & _).
  pose proof (processCSVStream_spec _ _ _ _ _ Hfirst) as (_ & Hd3 & _). cbn in Hd3.
  unfold main_try.
  rewrite (bind_ok _ _ _ _ _ Hcheck). cbn [negb].
  rewrite (bind_ok _ _ wc tt (emit (ConsoleLog "Starting to insert customers") wc))
    by reflexivity.
  rewrite bind_run. cbn [gets].
  replace (customers_csv (emit (ConsoleLog "Starting to insert customers") wc))
    with (customers_csv w) by (unfold customers_csv; cbn; by rewrite Hdc).
  rewrite (bind_ok _ _ _ _ _ Hfirst).
  rewrite (bind_ok _ _ w3 tt (emit (ConsoleLog "Starting to insert organizations") w3))
    by reflexivity.
  rewrite bind_run. cbn [gets].
  replace (organizations_csv (emit (ConsoleLog "Starting to insert organizations") w3))
    with (organizations_csv w)
    by (unfold organizations_csv; cbn; by rewrite Hd3, Hdc).
  reflexivity.
Qed.

(** X14: when the first file has been loaded and the ingestion of the
    second fails, [main] writes the error and goes to the cleanup without
    counting anything: no count query is sent (any in the trace was there
    before the run), the tables are exactly as
    the first ingestion left them (its rows stay committed), and the run
    completes normally. *)
Theorem second_failure_keeps_first_file (w wc w3 w5 : World) (e : JsError) :
  checkDatabaseConnection w = (Ok true, wc) ->
  processCSVStream (customers_csv w) "customers"
    (emit (ConsoleLog "Starting to insert customers") wc) = (Ok tt, w3) ->
  processCSVStream (organizations_csv w) "organizations"
    (emit (ConsoleLog "Starting to insert organizations") w3) = (Err e, w5) ->
  main w = (Ok tt, closing (emit (ConsoleError "Error:" (Some e)) w5))
  /\ tables (snd (main w)) = tables w3
  /\ (forall t, CountRows t ∈ statements (trace (snd (main w))) ->
                CountRows t ∈ statements (trace w)).
Proof.
  intros Hcheck Hfirst Hsecond.
  assert (Hmain : main w = (Ok tt, closing (emit (ConsoleError "Error:" (Some e)) w5))).
  { rewrite main_run, (main_try_second_file _ _ _ Hcheck Hfirst).
    by rewrite (bind_err _ _ _ _ _ Hsecond). }
  split; [exact Hmain |]. rewrite Hmain. cbn [snd].
  pose proof (processCSVStream_failure_keeps_tables _ _ _ _ _ Hsecond) as Ht5.
  split; [cbn; apply Ht5; discriminate |].
  intros t.
  pose proof (checkDatabaseConnection_spec _ _ _ Hcheck) as (_ & _ & _ & _ & Hec).
  pose proof (processCSVStream_steady _ _ _ _ _ Hfirst) as [(_ & _ & He3) _].
  pose proof (processCSVStream_steady _ _ _ _ _ Hsecond) as [(_ & _ & He5) _].
  assert (Hno : emits (fun ev => forall t, ev <> Sql (CountRows t)) w w5).
  { etransitivity; [eapply emits_weaken; [| exact Hec] |].
    { intros [| | | | | | | |[]|]; cbn; try tauto; discriminate. }
    etransitivity; [apply (emits_emit _ (ConsoleLog "Starting to insert customers") wc);
                    discriminate |].
    etransitivity; [eapply emits_weaken; [| exact He3] |].
    { intros [| | | | | | | |[]|] [Hr | [b Hw]]; cbn in *; try tauto; discriminate. }
    etransitivity; [apply (emits_emit _ (ConsoleLog "Starting to insert organizations") w3);
                    discriminate |].
    eapply emits_weaken; [| exact He5].
    intros [| | | | | | | |[]|] [Hr | [b Hw]]; cbn in *; try tauto; discriminate. }
  destruct Hno as (evs & Htr & F).
  unfold closing, statements. cbn. rewrite Htr, !omap_app. cbn. rewrite !app_nil_r.
  intros [Hin | Hin]%elem_of_app; [exact Hin | exfalso].
  apply list_elem_of_omap in Hin as (ev & Hev & Hs).
  rewrite Forall_forall in F. specialize (F _ Hev).
  destruct ev; try discriminate. inversion Hs; subst. by apply (F t).
Qed.

Lemma second_failure_keeps_first_file_witness :
  let w := scenario_late_clash in
  let wc := snd (checkDatabaseConnection w) in
  let w3 := snd (processCSVStream (customers_csv w) "customers"
                   (emit (ConsoleLog "Starting to insert customers") wc)) in
  let w5 := snd (processCSVStream (organizations_csv w) "organizations"
                   (emit (ConsoleLog "Starting to insert organizations") w3)) in
  main w = (Ok tt, closing (emit (ConsoleError "Error:"
                                    (Some (sqlite_constraint "organizations" "Organization Id")))
                              w5))
  /\ tables (snd (main w)) = tables w3
  /\ (forall t, CountRows t ∈ statements (trace (snd (main w))) ->
                CountRows t ∈ statements (trace w)).
Proof.
  intros w wc w3 w5.
  apply (second_failure_keeps_first_file w wc w3 w5
           (sqlite_constraint "organizations" "Organization Id")).
  - vm_compute. reflexivity.
  - vm_compute. reflexivity.
  - vm_compute. reflexivity.
Defined.

Lemma count_accepted tableName t w :
  faults w = [] ->
  tables w !! tableName = Some t ->
  count tableName w
  = (Ok (Z.of_nat (List.length (rows t))), emit (Sql (CountRows tableName)) w).
Proof.
  intros Hf Ht.
  unfold count, submit, next_fault, do_, gets, throw, mbind, M_bind, mret, M_ret.
  cbn. rewrite Hf. cbn. by rewrite Ht.
Qed.

(** X15: a run in which the engine raises no fault, both files parse and
    no row repeats a key loads both tables in full, and the two counts
    that [main] prints are the numbers of rows in the tables at that
    moment (the rows already there plus the rows of the file); the run
    ends with the two count queries, the two report lines, the release of
    the connection and the closing line. *)
Theorem full_run_reports_row_counts
    (w : World) (customers organizations : string)
    (cs os : list Record_) (tc to : Table) :
  faults w = [] ->
  files w !! customers_csv w = Some customers ->
  files w !! organizations_csv w = Some organizations ->
  parse_csv customers = inr cs ->
  parse_csv organizations = inr os ->
  tables w !! "customers" = Some tc ->
  tables w !! "organizations" = Some to ->
  (exists tc', insert_rows "customers" tc cs = inr tc') ->
  (exists to', insert_rows "organizations" to os = inr to') ->
  fst (main w) = Ok tt
  /\ tables (snd (main w))
     = <["organizations" := mkTable (primaryKey to) (rows to ++ os)]>
         (<["customers" := mkTable (primaryKey tc) (rows tc ++ cs)]> (tables w))
  /\ exists evs,
       trace (snd (main w))
       = evs ++ closing_events (Z.of_nat (List.length (rows tc ++ cs)))
                               (Z.of_nat (List.length (rows to ++ os))).
Proof.
  intros Hf Hfc Hfo Hpc Hpo Htc Hto [tc' Hic] [to' Hio].
  pose proof (insert_rows_shape "customers" cs tc) as Hsc. rewrite Hic in Hsc.
  pose proof (insert_rows_shape "organizations" os to) as Hso. rewrite Hio in Hso.
  subst tc' to'.
  pose proof (checkDatabaseConnection_run w) as Hcheck. rewrite Hf in Hcheck.
  cbn [head tail] in Hcheck.
  set (wc := emit (ConsoleLog "Database connected successfully")
               (set_faults [] (emit (Sql SelectOne) w))) in Hcheck.
  destruct (load_without_faults (customers_csv w) "customers" customers cs tc
              (emit (ConsoleLog "Starting to insert customers") wc))
    as (w3 & Hfirst & Hf3 & Hfil3 & Ht3 & _); try assumption; try reflexivity.
  rewrite Hic in Hfirst, Ht3. cbn [tables emit wc set_faults] in Ht3.
  destruct (load_without_faults (organizations_csv w) "organizations" organizations os to
              (emit (ConsoleLog "Starting to insert organizations") w3))
    as (w5 & Hsecond & Hf5 & Hfil5 & Ht5 & _); try assumption.
  { cbn. rewrite Hfil3. exact Hfo. }
  { cbn. rewrite Ht3, lookup_insert_ne by discriminate. exact Hto. }
  rewrite Hio in Hsecond, Ht5. cbn [tables emit] in Ht5. rewrite Ht3 in Ht5.
  rewrite main_run, (main_try_second_file _ _ _ Hcheck Hfirst).
  rewrite (bind_ok _ _ _ _ _ Hsecond).
  rewrite (bind_ok _ _ w5 tt (emit (ConsoleLog "All data insertion completed") w5))
    by reflexivity.
  set (w6 := emit (ConsoleLog "All data insertion completed") w5).
  assert (Hf6 : faults w6 = []) by exact Hf5.
  assert (Ht6 : tables w6 = tables w5) by reflexivity.
  rewrite (bind_ok _ _ w6 _ _
             (count_accepted "customers" (mkTable (primaryKey tc) (rows tc ++ cs)) w6
                Hf6 ltac:(rewrite Ht6, Ht5, lookup_insert_ne by discriminate;
                          apply lookup_insert_eq))).
  set (w7 := emit (Sql (CountRows "customers")) w6).
  assert (Hf7 : faults w7 = []) by exact Hf5.
  assert (Ht7 : tables w7 = tables w5) by reflexivity.
  rewrite (bind_ok _ _ w7 _ _
             (count_accepted "organizations" (mkTable (primaryKey to) (rows to ++ os)) w7
                Hf7 ltac:(rewrite Ht7, Ht5; apply lookup_insert_eq))).
  cbn [rows].
  unfold console_log, do_, mbind, M_bind, mret, M_ret. cbn.
  split; [reflexivity |]. split; [exact Ht5 |].
  exists (trace w5 ++ [ConsoleLog "All data insertion completed"]).
  unfold closing_events. by list_norm.
Qed.

Lemma full_run_reports_row_counts_witness :
  fst (main scenario_ok) = Ok tt
  /\ tables (snd (main scenario_ok))
     = <["organizations" :=
           mkTable "Organization Id" ([] ++ [[("Organization Id", "o1"); ("Name", "Acme")]])]>
         (<["customers" :=
              mkTable "Customer Id" ([] ++ [[("Customer Id", "c1"); ("First Name", "Ann")];
                                           [("Customer Id", "c2"); ("First Name", "Ben")]])]>
            (tables scenario_ok))
  /\ exists evs,
       trace (snd (main scenario_ok))
       = evs ++ closing_events
                  (Z.of_nat (List.length
                     ([] ++ [[("Customer Id", "c1"); ("First Name", "Ann")];
                             [("Customer Id", "c2"); ("First Name", "Ben")]])))
                  (Z.of_nat (List.length
                     ([] ++ [[("Organization Id", "o1"); ("Name", "Acme")]]))).
Proof.
  apply (full_run_reports_row_counts scenario_ok customers_small_csv organizations_small_csv
           [[("Customer Id", "c1"); ("First Name", "Ann")];
            [("Customer Id", "c2"); ("First Name", "Ben")]]
           [[("Organization Id", "o1"); ("Name", "Acme")]]
           (mkTable "Customer Id" []) (mkTable "Organization Id" [])).
  - reflexivity.
  - vm_compute. reflexivity.
  - vm_compute. reflexivity.
  - vm_compute. reflexivity.
  - vm_compute. reflexivity.
  - vm_compute. reflexivity.
  - vm_compute. reflexivity.
  - eexists. vm_compute. reflexivity.
  - eexists. vm_compute. reflexivity.
Defined.

(** * The migrations *)

Lemma createTable_fresh tableName columns (s : Schema) :
  s !! tableName = None ->
  createTable tableName columns s = inr (<[tableName := columns]> s).
Proof. intros H. unfold createTable. by rewrite H. Qed.

Lemma dropTable_created tableName columns (s : Schema) :
  s !! tableName = None ->
  dropTable tableName (<[tableName := columns]> s) = inr s.
Proof.
  intros H. unfold dropTable. rewrite lookup_insert_eq.
  by rewrite delete_insert_eq, delete_id.
Qed.

(** X16: on a database that has neither table, each migration is undone
    by its [down], and the two migrations run up in order and down in
    reverse order leave the schema exactly as it was; a second [up] in a
    row is refused by the engine. *)
Theorem migrations_round_trip (s : Schema) :
  s !! "customers" = None ->
  s !! "organizations" = None ->
  and_then (customers_migration.up s) customers_migration.down = inr s
  /\ and_then (organizations_migration.up s) organizations_migration.down = inr s
  /\ and_then (and_then (and_then (customers_migration.up s) organizations_migration.up)
                 organizations_migration.down)
       customers_migration.down = inr s
  /\ and_then (customers_migration.up s) customers_migration.up
     = inl (table_exists "customers")
  /\ and_then (organizations_migration.up s) organizations_migration.up
     = inl (table_exists "organizations").
Proof.
  intros Hc Ho.
  unfold customers_migration.up, customers_migration.down,
    organizations_migration.up, organizations_migration.down.
  rewrite !(createTable_fresh _ _ s) by assumption. cbn [and_then].
  rewrite !dropTable_created by assumption.
  split; [reflexivity |]. split; [reflexivity |].
  split.
  - rewrite createTable_fresh by (by rewrite lookup_insert_ne). cbn [and_then].
    rewrite dropTable_created by (by rewrite lookup_insert_ne). cbn [and_then].
    by rewrite dropTable_created.
  - unfold createTable at 1 2. cbn [and_then]. unfold createTable. rewrite !lookup_insert_eq. split; reflexivity.
Qed.

Lemma migrations_round_trip_witness :
  let s : Schema := ∅ in
  and_then (customers_migration.up s) customers_migration.down = inr s
  /\ and_then (organizations_migration.up s) organizations_migration.down = inr s
  /\ and_then (and_then (and_then (customers_migration.up s) organizations_migration.up)
                 organizations_migration.down)
       customers_migration.down = inr s
  /\ and_then (customers_migration.up s) customers_migration.up
     = inl (table_exists "customers")
  /\ and_then (organizations_migration.up s) organizations_migration.up
     = inl (table_exists "organizations").
Proof.
  intros s. apply (migrations_round_trip s); reflexivity.
Defined.

(** X17: the two migrations do not depend on each other: run up in
    either order they succeed on the same databases and produce the same
    schema, and so do the two [down]s. *)
Theorem migrations_independent (s s' : Schema) :
  (and_then (customers_migration.up s) organizations_migration.up = inr s'
   <-> and_then (organizations_migration.up s) customers_migration.up = inr s')
  /\ (and_then (customers_migration.down s) organizations_migration.down = inr s'
      <-> and_then (organizations_migration.down s) customers_migration.down = inr s').
Proof.
  unfold customers_migration.up, customers_migration.down,
    organizations_migration.up, organizations_migration.down, createTable, dropTable.
  split.
  - destruct (s !! "customers") eqn:Hc, (s !! "organizations") eqn:Ho; cbn;
      rewrite ?lookup_insert_ne by discriminate; rewrite ?Hc, ?Ho;
      try (split; discriminate).
    rewrite insert_insert_ne by discriminate. reflexivity.
  - destruct (s !! "customers") eqn:Hc, (s !! "organizations") eqn:Ho; cbn;
      rewrite ?lookup_delete_ne by discriminate; rewrite ?Hc, ?Ho;
      try (split; discriminate).
    rewrite delete_delete. reflexivity.
Qed.
